(** * PodMonitoring scrape-configuration compiler

    A shallow embedding of [pkg/operator/apis/monitoring/v1alpha1/types.go]:
    the validation entry points of [PodMonitoring], [ScrapeConfigs],
    [endpontScrapeConfig], [labelMappingRelabelConfigs],
    [isPrometheusTargetLabel] and [sanitizeLabelName].

    Go strings are byte sequences and are embedded as [string]; a Go map is a
    [gmap]; [int32] and [model.Duration] values are integers in [Z]. A Go
    function returning [(T, error)] returns a [result T], which also records a
    panic (raised by [relabel.MustNewRegexp] and by slice indexing). *)

From Stdlib Require Import ZArith NArith Ascii String DecimalString.
From stdpp Require Import base tactics option list strings gmap sorting.

Local Open Scope Z_scope.

(** ** Strings *)

(** [lo <= c <= hi] on the byte value of [c]. *)
Definition byte_in (lo hi : N) (c : ascii) : bool :=
  ((lo <=? N_of_ascii c) && (N_of_ascii c <=? hi))%N.

(** The bytes of the class [[a-zA-Z0-9_]]. *)
Definition validLabelChar (c : ascii) : bool :=
  byte_in 97 122 c || byte_in 65 90 c || byte_in 48 57 c || Ascii.eqb c "_".

Definition isASCII (c : ascii) : bool := (N_of_ascii c <? 128)%N.

(** A UTF-8 continuation byte, [0x80..0xBF]. *)
Definition continuation (c : ascii) : bool := byte_in 128 191 c.

(** Number of bytes of the rune that starts with byte [c] and is followed by
    [rest], as Go's regexp engine reads its input ([utf8.DecodeRuneInString]):
    a well-formed sequence of two to four bytes is one rune, and any other
    byte is a rune of width one (for a byte above 0x7F, the error rune). *)
Definition DecodeRuneInString_size (c : ascii) (rest : string) : nat :=
  let b := N_of_ascii c in
  if isASCII c then 1%nat
  else if byte_in 194 223 c then
    match rest with
    | String c1 _ => if continuation c1 then 2%nat else 1%nat
    | _ => 1%nat
    end
  else if byte_in 224 239 c then
    match rest with
    | String c1 (String c2 _) =>
        if byte_in (if (b =? 224)%N then 160 else 128)
                   (if (b =? 237)%N then 159 else 191) c1
           && continuation c2
        then 3%nat else 1%nat
    | _ => 1%nat
    end
  else if byte_in 240 244 c then
    match rest with
    | String c1 (String c2 (String c3 _)) =>
        if byte_in (if (b =? 240)%N then 144 else 128)
                   (if (b =? 244)%N then 143 else 191) c1
           && continuation c2 && continuation c3
        then 4%nat else 1%nat
    | _ => 1%nat
    end
  else 1%nat.

(** [invalidLabelCharRE.ReplaceAllString(src, "_")] for the pattern
    [[^a-zA-Z0-9_]]: every rune outside the class is one match and becomes one
    underscore, everything else is copied. [skip] counts the bytes that still
    belong to the rune replaced last. *)
Fixpoint ReplaceAllString_invalidLabelChar (skip : nat) (src : string) : string :=
  match src with
  | EmptyString => EmptyString
  | String c rest =>
      match skip with
      | S k => ReplaceAllString_invalidLabelChar k rest
      | O =>
          if validLabelChar c
          then String c (ReplaceAllString_invalidLabelChar 0 rest)
          else String "_" (ReplaceAllString_invalidLabelChar
                             (DecodeRuneInString_size c rest - 1) rest)
      end
  end.

(** [sanitizeLabelName] reproduces the label name cleanup Prometheus's service
    discovery applies. *)
Definition sanitizeLabelName (name : string) : string :=
  ReplaceAllString_invalidLabelChar 0 name.

(** A name written in the alphabet of label names. *)
Definition validLabelName (name : string) : Prop :=
  Forall (λ c, validLabelChar c = true) (list_ascii_of_string name).

(** The first [k] bytes of [s] exist and lie above 0x7F. *)
Fixpoint high_prefix (k : nat) (s : string) : Prop :=
  match k, s with
  | O, _ => True
  | S k', String c rest => isASCII c = false ∧ high_prefix k' rest
  | S _, EmptyString => False
  end.

(** [strings.Join]. *)
Definition strings_Join (elems : list string) (sep : string) : string :=
  String.concat sep elems.

(** [sort.Strings]: the increasing arrangement of the slice for the bytewise
    order of Go's [<] on strings. *)
Definition sort_Strings (x : list string) : list string :=
  merge_sort String.le x.

(** [%d] of an integer. *)
Definition Sprintf_d (n : Z) : string := NilEmpty.string_of_int (Z.to_int n).

(** ** Data model *)

(** [model.Duration]: nanoseconds in an [int64]. *)
Definition Duration : Type := Z.

(** [intstr.IntOrString]. The compiler reads [StrVal] and [IntVal] and never
    the [Type] tag; the tag only chooses what [String()] prints. *)
Inductive intstr_Type : Type := intstr_Int | intstr_String.

Record IntOrString : Type := {
  Type_ : intstr_Type;
  IntVal : Z;
  StrVal : string
}.

(** The [String] method of [IntOrString]. *)
Definition IntOrString_String (p : IntOrString) : string :=
  match Type_ p with
  | intstr_String => StrVal p
  | intstr_Int => Sprintf_d (IntVal p)
  end.

Record ScrapeEndpoint : Type := {
  Port : IntOrString;
  Path : string;
  Interval : string;
  Timeout : string
}.

Record LabelMapping : Type := {
  From : string;
  To : string
}.

Record TargetLabels : Type := {
  FromPod : list LabelMapping
}.

(** [metav1.LabelSelectorRequirement]; the operator is a string type whose
    declared values are [In], [NotIn], [Exists] and [DoesNotExist]. *)
Record LabelSelectorRequirement : Type := {
  Key : string;
  Operator : string;
  Values : list string
}.

Definition LabelSelectorOpIn : string := "In".
Definition LabelSelectorOpNotIn : string := "NotIn".
Definition LabelSelectorOpExists : string := "Exists".
Definition LabelSelectorOpDoesNotExist : string := "DoesNotExist".

Record LabelSelector : Type := {
  MatchLabels : gmap string string;
  MatchExpressions : list LabelSelectorRequirement
}.

Record PodMonitoringSpec : Type := {
  Selector : LabelSelector;
  Endpoints : list ScrapeEndpoint;
  TargetLabels_ : TargetLabels
}.

(** [PodMonitoring], with the two fields of its [ObjectMeta] the compiler
    reads. *)
Record PodMonitoring : Type := {
  Namespace : string;
  Name : string;
  Spec : PodMonitoringSpec
}.

(** [relabel.Action]. *)
Inductive relabel_Action : Type := Keep | Drop | Replace.

(** [relabel.Regexp]: the pattern [original], compiled anchored. *)
Record Regexp : Type := { original : string }.

(** [relabel.Config], with the fields the compiler sets; a field a literal
    leaves out holds its zero value ([None], the empty string or [[]]). *)
Record relabel_Config : Type := {
  Action : relabel_Action;
  SourceLabels : list string;
  Regex : option Regexp;
  Replacement : string;
  TargetLabel : string
}.

Record SelectorConfig : Type := {
  SelectorRole : string;
  Field : string
}.

Inductive HTTPClientConfig : Type := DefaultHTTPClientConfig.

(** [discoverykube.SDConfig]. *)
Record SDConfig : Type := {
  HTTPClientConfig_ : HTTPClientConfig;
  Role : string;
  Selectors : list SelectorConfig
}.

(** [promconfig.ScrapeConfig]. *)
Record ScrapeConfig : Type := {
  JobName : string;
  ServiceDiscoveryConfigs : list SDConfig;
  MetricsPath : string;
  ScrapeInterval : Duration;
  ScrapeTimeout : Duration;
  RelabelConfigs : list relabel_Config
}.

(** ** Errors and panics *)

(** The errors of the compiler, one constructor per place that builds one; a
    wrapping error carries its cause. *)
Inductive error : Type :=
  (** returned by [relabel.NewRegexp] for the pattern *)
  | RegexpError (pattern : string)
  (** returned by [model.ParseDuration] for the string *)
  | DurationError (durationStr : string)
  (** "at least one endpoint is required" *)
  | NoEndpoints
  (** "invalid definition for endpoint with index %d" *)
  | InvalidEndpoint (index : nat) (cause : error)
  (** "invalid port name %q" *)
  | InvalidPortName (port : IntOrString) (cause : error)
  (** "port must be set for PodMonitoring" *)
  | MissingPort
  (** "relabel %q to %q conflicts with GMP target schema" *)
  | ReservedLabelCollision (from to : string)
  (** "invalid PodMonitoring target labels" *)
  | InvalidTargetLabels (cause : error)
  (** "invalid scrape interval" *)
  | InvalidInterval (cause : error)
  (** "invalid scrape timeout" *)
  | InvalidTimeout (cause : error)
  (** "scrape timeout %v must not be greater than scrape interval %v" *)
  | TimeoutExceedsInterval (timeout interval : Duration).

Inductive panic : Type :=
  (** [relabel.MustNewRegexp] on a pattern that does not compile *)
  | RegexpPanic (pattern : string)
  (** an index outside the slice *)
  | IndexPanic (index : nat).

Inductive result (A : Type) : Type :=
  | Ok (a : A)
  | Err (e : error)
  | Panic (p : panic).

Arguments Ok {A} a.
Arguments Err {A} e.
Arguments Panic {A} p.

#[global] Instance result_ret : MRet result := fun A a => Ok a.

#[global] Instance result_bind : MBind result := fun A B f r =>
  match r with
  | Ok a => f a
  | Err e => Err e
  | Panic p => Panic p
  end.

(** [errors.Wrap]: an error gets a context, a value or a panic passes. *)
Definition wrap {A} (ctx : error → error) (r : result A) : result A :=
  match r with
  | Ok a => Ok a
  | Err e => Err (ctx e)
  | Panic p => Panic p
  end.

(** A loop over a slice that threads the accumulator [a] and stops at the
    first error or panic. *)
Fixpoint foldM {A B} (f : A → B → result A) (a : A) (l : list B) : result A :=
  match l with
  | [] => Ok a
  | b :: l' => a' ← f a b; foldM f a' l'
  end.

(** ** Imported packages

    What the compiler calls outside this file: Go's [regexp] (through
    [relabel.NewRegexp]), [model.ParseDuration], and the label names of the
    repository's [export] package. *)
Class Imports : Type := {
  (** [regexp.Compile] accepts the pattern *)
  regexp_Compile_ok : string → bool;
  (** [model.ParseDuration], [None] where it returns an error *)
  ParseDuration : string → option Duration;
  KeyProjectID : string;
  KeyLocation : string;
  KeyCluster : string;
  KeyNamespace : string;
  KeyJob : string;
  KeyInstance : string;
  (** the two patterns the compiler writes as literals compile *)
  Compile_true : regexp_Compile_ok "^(?:true)$" = true;
  Compile_merge : regexp_Compile_ok "^(?:(.+);(.+))$" = true;
  (** the empty string is not a duration *)
  ParseDuration_empty : ParseDuration EmptyString = None
}.

(** ** The compiler *)

Section Compiler.
Context `{Imports}.

(** [relabel.NewRegexp]: compiles the pattern anchored at both ends. *)
Definition NewRegexp (s : string) : result Regexp :=
  if regexp_Compile_ok ("^(?:" +:+ s +:+ ")$")
  then Ok {| original := s |}
  else Err (RegexpError s).

(** [relabel.MustNewRegexp]: panics where [NewRegexp] returns an error. *)
Definition MustNewRegexp (s : string) : result Regexp :=
  match NewRegexp s with
  | Ok re => Ok re
  | _ => Panic (RegexpPanic s)
  end.

(** [isPrometheusTargetLabel] returns true if the label argument is in use by
    the Prometheus target schema. *)
Definition isPrometheusTargetLabel (label : string) : bool :=
  bool_decide (label = KeyProjectID) || bool_decide (label = KeyLocation)
  || bool_decide (label = KeyCluster) || bool_decide (label = KeyNamespace)
  || bool_decide (label = KeyJob) || bool_decide (label = KeyInstance).

(** One iteration of the loop of [labelMappingRelabelConfigs]. *)
Definition labelMappingRelabelConfig (prefix : string)
    (relabelCfgs : list relabel_Config) (m : LabelMapping)
    : result (list relabel_Config) :=
  if isPrometheusTargetLabel (To m)
  then Err (ReservedLabelCollision (From m) (To m))
  else
    let m := if decide (To m = EmptyString)
             then {| From := From m; To := From m |} else m in
    Ok (relabelCfgs ++ [ {| Action := Replace;
                            SourceLabels := [prefix +:+ sanitizeLabelName (From m)];
                            Regex := None;
                            Replacement := EmptyString;
                            TargetLabel := To m |} ]).

(** [labelMappingRelabelConfigs] generates relabel configs using a provided
    mapping and resource prefix. *)
Definition labelMappingRelabelConfigs (mappings : list LabelMapping)
    (prefix : string) : result (list relabel_Config) :=
  foldM (labelMappingRelabelConfig prefix) [] mappings.

Definition EnvVarNodeName : string := "NODE_NAME".

(** The discovery configuration, the same for all scrape jobs. *)
Definition discoveryCfgs : list SDConfig :=
  [ {| HTTPClientConfig_ := DefaultHTTPClientConfig;
       Role := "pod";
       Selectors := [ {| SelectorRole := "pod";
                         Field := "spec.nodeName=$(" +:+ EnvVarNodeName +:+ ")" |} ] |} ].

(** The keys a [range] over the map yields. Go fixes no order for them; one
    enumeration is chosen here, and [sort_Strings_range] shows that after
    sorting the choice makes no difference. *)
Definition range_keys (m : gmap string string) : list string :=
  (map_to_list m).*1.

(** Filter targets by namespace of the PodMonitoring configuration. *)
Definition namespaceFilter (pm : PodMonitoring) : result (list relabel_Config) :=
  re ← MustNewRegexp (Namespace pm);
  Ok [ {| Action := Keep;
          SourceLabels := ["__meta_kubernetes_namespace"%string];
          Regex := Some re;
          Replacement := EmptyString;
          TargetLabel := EmptyString |} ].

(** The Keep rule of the equal matcher on key [k]. *)
Definition matchLabelFilter (matchLabels : gmap string string)
    (relabelCfgs : list relabel_Config) (k : string)
    : result (list relabel_Config) :=
  re ← MustNewRegexp (default EmptyString (matchLabels !! k));
  Ok (relabelCfgs ++
      [ {| Action := Keep;
           SourceLabels := ["__meta_kubernetes_pod_label_" +:+ sanitizeLabelName k];
           Regex := Some re;
           Replacement := EmptyString;
           TargetLabel := EmptyString |} ]).

(** Simple equal matchers, sorted by keys first; [iterated] is the order in
    which the [range] over the map yielded the keys. *)
Definition matchLabelsFilters (iterated : list string)
    (matchLabels : gmap string string) (relabelCfgs : list relabel_Config)
    : result (list relabel_Config) :=
  let selectorKeys := sort_Strings iterated in
  foldM (matchLabelFilter matchLabels) relabelCfgs selectorKeys.

(** Expression matchers are mapped to relabeling rules with the same
    behavior; the [switch] has no default case. *)
Definition matchExpressionFilter (relabelCfgs : list relabel_Config)
    (exp : LabelSelectorRequirement) : result (list relabel_Config) :=
  if decide (Operator exp = LabelSelectorOpIn) then
    re ← MustNewRegexp (strings_Join (Values exp) "|");
    Ok (relabelCfgs ++
        [ {| Action := Keep;
             SourceLabels := ["__meta_kubernetes_pod_label_" +:+ sanitizeLabelName (Key exp)];
             Regex := Some re;
             Replacement := EmptyString;
             TargetLabel := EmptyString |} ])
  else if decide (Operator exp = LabelSelectorOpNotIn) then
    re ← MustNewRegexp (strings_Join (Values exp) "|");
    Ok (relabelCfgs ++
        [ {| Action := Drop;
             SourceLabels := ["__meta_kubernetes_pod_label_" +:+ sanitizeLabelName (Key exp)];
             Regex := Some re;
             Replacement := EmptyString;
             TargetLabel := EmptyString |} ])
  else if decide (Operator exp = LabelSelectorOpExists) then
    re ← MustNewRegexp "true";
    Ok (relabelCfgs ++
        [ {| Action := Keep;
             SourceLabels := ["__meta_kubernetes_pod_labelpresent_" +:+ sanitizeLabelName (Key exp)];
             Regex := Some re;
             Replacement := EmptyString;
             TargetLabel := EmptyString |} ])
  else if decide (Operator exp = LabelSelectorOpDoesNotExist) then
    re ← MustNewRegexp "true";
    Ok (relabelCfgs ++
        [ {| Action := Drop;
             SourceLabels := ["__meta_kubernetes_pod_labelpresent_" +:+ sanitizeLabelName (Key exp)];
             Regex := Some re;
             Replacement := EmptyString;
             TargetLabel := EmptyString |} ])
  else Ok relabelCfgs.

Definition matchExpressionsFilters (matchExpressions : list LabelSelectorRequirement)
    (relabelCfgs : list relabel_Config) : result (list relabel_Config) :=
  foldM matchExpressionFilter relabelCfgs matchExpressions.

(** Set a clean namespace and job label. *)
Definition cleanLabels (pm : PodMonitoring) (relabelCfgs : list relabel_Config)
    : list relabel_Config :=
  let relabelCfgs :=
    relabelCfgs ++ [ {| Action := Replace;
                        SourceLabels := ["__meta_kubernetes_namespace"%string];
                        Regex := None;
                        Replacement := EmptyString;
                        TargetLabel := "namespace" |} ] in
  relabelCfgs ++ [ {| Action := Replace;
                      SourceLabels := [];
                      Regex := None;
                      Replacement := Name pm;
                      TargetLabel := "job" |} ].

(** Filter targets by the configured port. *)
Definition portFilter (ep : ScrapeEndpoint) (relabelCfgs : list relabel_Config)
    : result (list relabel_Config) :=
  if decide (StrVal (Port ep) ≠ EmptyString) then
    portValue ← wrap (InvalidPortName (Port ep)) (NewRegexp (StrVal (Port ep)));
    let relabelCfgs :=
      relabelCfgs ++ [ {| Action := Keep;
                          SourceLabels := ["__meta_kubernetes_pod_container_port_name"%string];
                          Regex := Some portValue;
                          Replacement := EmptyString;
                          TargetLabel := EmptyString |} ] in
    merge ← MustNewRegexp "(.+);(.+)";
    Ok (relabelCfgs ++
        [ {| Action := Replace;
             SourceLabels := ["__meta_kubernetes_pod_name"%string;
                              "__meta_kubernetes_pod_container_port_name"%string];
             Regex := Some merge;
             Replacement := "$1:$2";
             TargetLabel := "instance" |} ])
  else if decide (IntVal (Port ep) ≠ 0) then
    let relabelCfgs :=
      relabelCfgs ++ [ {| Action := Replace;
                          SourceLabels := ["__meta_kubernetes_pod_name"%string];
                          Regex := None;
                          Replacement := "$1:" +:+ Sprintf_d (IntVal (Port ep));
                          TargetLabel := "instance" |} ] in
    Ok (relabelCfgs ++
        [ {| Action := Replace;
             SourceLabels := ["__meta_kubernetes_pod_ip"%string];
             Regex := None;
             Replacement := "$1:" +:+ Sprintf_d (IntVal (Port ep));
             TargetLabel := "__address__" |} ])
  else Err MissingPort.

(** Incorporate k8s label remappings from CRD. *)
Definition targetLabelMappings (pm : PodMonitoring)
    (relabelCfgs : list relabel_Config) : result (list relabel_Config) :=
  pCfgs ← wrap InvalidTargetLabels
            (labelMappingRelabelConfigs (FromPod (TargetLabels_ (Spec pm)))
                                        "__meta_kubernetes_pod_label_");
  Ok (relabelCfgs ++ pCfgs).

(** [model.ParseDuration] as a [result]. *)
Definition ParseDuration_result (durationStr : string) : result Duration :=
  match ParseDuration durationStr with
  | Some d => Ok d
  | None => Err (DurationError durationStr)
  end.

(** The scrape interval and timeout of the endpoint, in this order. *)
Definition scrapeDurations (ep : ScrapeEndpoint) : result (Duration * Duration) :=
  interval ← wrap InvalidInterval (ParseDuration_result (Interval ep));
  let timeout := interval in
  if decide (Timeout ep ≠ EmptyString) then
    timeout ← wrap InvalidTimeout (ParseDuration_result (Timeout ep));
    if decide (timeout > interval)
    then Err (TimeoutExceedsInterval timeout interval)
    else Ok (interval, timeout)
  else Ok (interval, timeout).

(** [pm.Spec.Endpoints[index]]. *)
Definition endpointAt (pm : PodMonitoring) (index : nat) : result ScrapeEndpoint :=
  match Endpoints (Spec pm) !! index with
  | Some ep => Ok ep
  | None => Panic (IndexPanic index)
  end.

(** The rules appended before the port is looked at: the namespace filter,
    the filters of the selector, and the clean namespace and job labels. *)
Definition selectorCfgs (pm : PodMonitoring) : result (list relabel_Config) :=
  relabelCfgs ← namespaceFilter pm;
  relabelCfgs ← matchLabelsFilters (range_keys (MatchLabels (Selector (Spec pm))))
                  (MatchLabels (Selector (Spec pm))) relabelCfgs;
  relabelCfgs ← matchExpressionsFilters (MatchExpressions (Selector (Spec pm)))
                  relabelCfgs;
  Ok (cleanLabels pm relabelCfgs).

(** The relabeling rules of the endpoint, in the order the function appends
    them. *)
Definition relabelCfgsOf (pm : PodMonitoring) (ep : ScrapeEndpoint)
    : result (list relabel_Config) :=
  relabelCfgs ← selectorCfgs pm;
  relabelCfgs ← portFilter ep relabelCfgs;
  targetLabelMappings pm relabelCfgs.

(** The durations, the metrics path and the job of the endpoint, once its
    rules are there. *)
Definition endpontScrapeConfig_rest (pm : PodMonitoring) (ep : ScrapeEndpoint)
    (relabelCfgs : list relabel_Config) : result ScrapeConfig :=
  '(interval, timeout) ← scrapeDurations ep;
  let metricsPath :=
    if decide (Path ep ≠ EmptyString) then Path ep else "/metrics"%string in
  Ok {| JobName := "PodMonitoring/" +:+ Namespace pm +:+ "/" +:+ Name pm
                   +:+ "/" +:+ IntOrString_String (Port ep);
        ServiceDiscoveryConfigs := discoveryCfgs;
        MetricsPath := metricsPath;
        ScrapeInterval := interval;
        ScrapeTimeout := timeout;
        RelabelConfigs := relabelCfgs |}.

Definition endpontScrapeConfig (pm : PodMonitoring) (index : nat)
    : result ScrapeConfig :=
  ep ← endpointAt pm index;
  relabelCfgs ← relabelCfgsOf pm ep;
  endpontScrapeConfig_rest pm ep relabelCfgs.

(** The loop of [ScrapeConfigs] over the indices that are left, with the
    configurations collected so far. *)
Fixpoint ScrapeConfigs_loop (pm : PodMonitoring) (indices : list nat)
    (res : list ScrapeConfig) : result (list ScrapeConfig) :=
  match indices with
  | [] => Ok res
  | i :: indices' =>
      match endpontScrapeConfig pm i with
      | Ok c => ScrapeConfigs_loop pm indices' (res ++ [c])
      | Err err => Err (InvalidEndpoint i err)
      | Panic p => Panic p
      end
  end.

Definition ScrapeConfigs (pm : PodMonitoring) : result (list ScrapeConfig) :=
  ScrapeConfigs_loop pm (seq 0 (length (Endpoints (Spec pm)))) [].

(** The validation entry points return an [error]; [Ok tt] is [nil]. *)
Definition ValidateCreate (pm : PodMonitoring) : result unit :=
  if decide (length (Endpoints (Spec pm)) = 0%nat) then Err NoEndpoints
  else
    match ScrapeConfigs pm with
    | Ok _ => Ok tt
    | Err err => Err err
    | Panic p => Panic p
    end.

(** Validity does not depend on state changes; [old] is any
    [runtime.Object]. *)
Definition ValidateUpdate {Object : Type} (pm : PodMonitoring) (old : Object)
    : result unit :=
  ValidateCreate pm.

(** Deletions are always valid. *)
Definition ValidateDelete (pm : PodMonitoring) : result unit := Ok tt.

End Compiler.

(** ** A reference instance of the imported packages

    Used to run the compiler on concrete resources. It accepts a pattern
    whose parentheses are balanced and a duration written as one number and
    one unit. *)

Fixpoint balanced (depth : nat) (s : string) : bool :=
  match s with
  | EmptyString => bool_decide (depth = 0%nat)
  | String c rest =>
      if Ascii.eqb c "(" then balanced (S depth) rest
      else if Ascii.eqb c ")" then
        match depth with
        | O => false
        | S d => balanced d rest
        end
      else balanced depth rest
  end.

(** The number the leading decimal digits of [s] spell, and what follows
    them. *)
Fixpoint leading_digits (acc : option Z) (s : string) : option Z * string :=
  match s with
  | EmptyString => (acc, s)
  | String c rest =>
      if byte_in 48 57 c
      then leading_digits (Some (10 * default 0 acc + (Z.of_N (N_of_ascii c) - 48))) rest
      else (acc, s)
  end.

(** Nanoseconds in one unit. *)
Definition unit_ns (u : string) : option Z :=
  if decide (u = "ms"%string) then Some 1000000
  else if decide (u = "s"%string) then Some 1000000000
  else if decide (u = "m"%string) then Some 60000000000
  else if decide (u = "h"%string) then Some 3600000000000
  else if decide (u = "d"%string) then Some 86400000000000
  else if decide (u = "w"%string) then Some 604800000000000
  else if decide (u = "y"%string) then Some 31536000000000000
  else None.

Definition reference_ParseDuration (durationStr : string) : option Duration :=
  match leading_digits None durationStr with
  | (Some n, u) => Z.mul n <$> unit_ns u
  | (None, _) => None
  end.

(** Modelled from the spec: the constant [export.KeyProjectID], declared in
    the [export] package, is the reserved identity label project. *)
Definition reference_KeyProjectID : string := "project".

(** Modelled from the spec: the constant [export.KeyLocation] is the reserved
    identity label location. *)
Definition reference_KeyLocation : string := "location".

(** Modelled from the spec: the constant [export.KeyCluster] is the reserved
    identity label cluster. *)
Definition reference_KeyCluster : string := "cluster".

(** Modelled from the spec: the constant [export.KeyNamespace] is the reserved
    identity label namespace. *)
Definition reference_KeyNamespace : string := "namespace".

(** Modelled from the spec: the constant [export.KeyJob] is the reserved
    identity label job. *)
Definition reference_KeyJob : string := "job".

(** Modelled from the spec: the constant [export.KeyInstance] is the reserved
    identity label instance. *)
Definition reference_KeyInstance : string := "instance".

Definition reference_imports : Imports :=
  {| regexp_Compile_ok := balanced 0;
     ParseDuration := reference_ParseDuration;
     KeyProjectID := reference_KeyProjectID;
     KeyLocation := reference_KeyLocation;
     KeyCluster := reference_KeyCluster;
     KeyNamespace := reference_KeyNamespace;
     KeyJob := reference_KeyJob;
     KeyInstance := reference_KeyInstance;
     Compile_true := eq_refl;
     Compile_merge := eq_refl;
     ParseDuration_empty := eq_refl |}.

(** ** The rule sequence by stage

    The rules of one endpoint as the specification lists them, stage by
    stage; the properties below compare the compiler's output with them. *)

Definition KeepRule (label pattern : string) : relabel_Config :=
  {| Action := Keep; SourceLabels := [label];
     Regex := Some {| original := pattern |};
     Replacement := EmptyString; TargetLabel := EmptyString |}.

Definition DropRule (label pattern : string) : relabel_Config :=
  {| Action := Drop; SourceLabels := [label];
     Regex := Some {| original := pattern |};
     Replacement := EmptyString; TargetLabel := EmptyString |}.

Definition ReplaceRule (sources : list string) (pattern : option string)
    (replacement target : string) : relabel_Config :=
  {| Action := Replace; SourceLabels := sources;
     Regex := (λ p, {| original := p |}) <$> pattern;
     Replacement := replacement; TargetLabel := target |}.

(** Keep only the targets of the resource's own namespace. *)
Definition namespaceRule (pm : PodMonitoring) : relabel_Config :=
  KeepRule "__meta_kubernetes_namespace" (Namespace pm).

(** The keys of the exact-match labels, sorted. *)
Definition selectorKeys (pm : PodMonitoring) : list string :=
  sort_Strings (range_keys (MatchLabels (Selector (Spec pm)))).

(** Keep the pods whose label [k] has the literal value of the selector. *)
Definition exactMatchRule (matchLabels : gmap string string) (k : string)
    : relabel_Config :=
  KeepRule ("__meta_kubernetes_pod_label_" +:+ sanitizeLabelName k)
           (default EmptyString (matchLabels !! k)).

(** The rule of one expression: none for an operator outside the four. *)
Definition expressionRules (exp : LabelSelectorRequirement) : list relabel_Config :=
  if decide (Operator exp = "In"%string) then
    [KeepRule ("__meta_kubernetes_pod_label_" +:+ sanitizeLabelName (Key exp))
              (strings_Join (Values exp) "|")]
  else if decide (Operator exp = "NotIn"%string) then
    [DropRule ("__meta_kubernetes_pod_label_" +:+ sanitizeLabelName (Key exp))
              (strings_Join (Values exp) "|")]
  else if decide (Operator exp = "Exists"%string) then
    [KeepRule ("__meta_kubernetes_pod_labelpresent_" +:+ sanitizeLabelName (Key exp))
              "true"]
  else if decide (Operator exp = "DoesNotExist"%string) then
    [DropRule ("__meta_kubernetes_pod_labelpresent_" +:+ sanitizeLabelName (Key exp))
              "true"]
  else [].

(** Identity normalization: the namespace label, then the job label. *)
Definition identityRules (pm : PodMonitoring) : list relabel_Config :=
  [ ReplaceRule ["__meta_kubernetes_namespace"%string] None EmptyString "namespace";
    ReplaceRule [] None (Name pm) "job" ].

(** The rules of a port given by name. *)
Definition namedPortRules (name : string) : list relabel_Config :=
  [ KeepRule "__meta_kubernetes_pod_container_port_name" name;
    ReplaceRule ["__meta_kubernetes_pod_name"%string;
                 "__meta_kubernetes_pod_container_port_name"%string]
                (Some "(.+);(.+)"%string) "$1:$2" "instance" ].

(** The rules of a port given by number. *)
Definition numericPortRules (number : Z) : list relabel_Config :=
  [ ReplaceRule ["__meta_kubernetes_pod_name"%string] None
                ("$1:" +:+ Sprintf_d number) "instance";
    ReplaceRule ["__meta_kubernetes_pod_ip"%string] None
                ("$1:" +:+ Sprintf_d number) "__address__" ].

(** The name wins over the number. *)
Definition portRules (port : IntOrString) : list relabel_Config :=
  if decide (StrVal port ≠ EmptyString) then namedPortRules (StrVal port)
  else numericPortRules (IntVal port).

(** The target label a mapping resolves to: [to], or [from] when [to] is
    absent. *)
Definition resolvedTarget (m : LabelMapping) : string :=
  if decide (To m = EmptyString) then From m else To m.

Definition mappingRule (prefix : string) (m : LabelMapping) : relabel_Config :=
  ReplaceRule [prefix +:+ sanitizeLabelName (From m)] None EmptyString
              (resolvedTarget m).

(** Namespace filter, selector rules (sorted exact matches, then the
    expressions in declaration order), identity normalization, port rules,
    label-mapping rules. *)
Definition stageOrder (pm : PodMonitoring) (ep : ScrapeEndpoint)
    : list relabel_Config :=
  [namespaceRule pm]
  ++ (exactMatchRule (MatchLabels (Selector (Spec pm))) <$> selectorKeys pm)
  ++ flat_map expressionRules (MatchExpressions (Selector (Spec pm)))
  ++ identityRules pm
  ++ portRules (Port ep)
  ++ (mappingRule "__meta_kubernetes_pod_label_" <$> FromPod (TargetLabels_ (Spec pm))).

(** The resource with other selector expressions. *)
Definition withMatchExpressions (pm : PodMonitoring)
    (matchExpressions : list LabelSelectorRequirement) : PodMonitoring :=
  {| Namespace := Namespace pm;
     Name := Name pm;
     Spec := {| Selector := {| MatchLabels := MatchLabels (Selector (Spec pm));
                               MatchExpressions := matchExpressions |};
                Endpoints := Endpoints (Spec pm);
                TargetLabels_ := TargetLabels_ (Spec pm) |} |}.

(** An operator the [switch] on the operator has a case for. *)
Definition recognizedOperator (op : string) : Prop :=
  op = LabelSelectorOpIn ∨ op = LabelSelectorOpNotIn
  ∨ op = LabelSelectorOpExists ∨ op = LabelSelectorOpDoesNotExist.

(** ** Example resources *)

Definition port_web : IntOrString :=
  {| Type_ := intstr_String; IntVal := 0; StrVal := "web" |}.

Definition port_unset : IntOrString :=
  {| Type_ := intstr_Int; IntVal := 0; StrVal := EmptyString |}.

Definition port_8080 : IntOrString :=
  {| Type_ := intstr_Int; IntVal := 8080; StrVal := EmptyString |}.

(** One endpoint with the port [8080]. *)
Definition numeric_port : PodMonitoring :=
  {| Namespace := "ns1";
     Name := "app";
     Spec := {| Selector := {| MatchLabels := ∅; MatchExpressions := [] |};
                Endpoints := [ {| Port := port_8080; Path := "/stats";
                                  Interval := "1m"; Timeout := "10s" |} ];
                TargetLabels_ := {| FromPod := [] |} |} |}.

(** Both fields populated. *)
Definition port_both : IntOrString :=
  {| Type_ := intstr_Int; IntVal := 8080; StrVal := "web" |}.

Definition endpoint (port : IntOrString) (interval timeout : string)
    : ScrapeEndpoint :=
  {| Port := port; Path := EmptyString; Interval := interval; Timeout := timeout |}.

Definition target (matchLabels : gmap string string)
    (matchExpressions : list LabelSelectorRequirement)
    (endpoints : list ScrapeEndpoint) (fromPod : list LabelMapping)
    : PodMonitoring :=
  {| Namespace := "ns1";
     Name := "app";
     Spec := {| Selector := {| MatchLabels := matchLabels;
                               MatchExpressions := matchExpressions |};
                Endpoints := endpoints;
                TargetLabels_ := {| FromPod := fromPod |} |} |}.

(** The resource of the end-to-end scenario. *)
Definition scenario : PodMonitoring :=
  target {[ "app"%string := "x"%string ]} []
         [endpoint port_web "30s" EmptyString] [].

(** The rules of the end-to-end scenario: Keep(namespace==ns1),
    Keep(pod_label_app==x), Replace(namespace→namespace), Replace(job:=app),
    Keep(container_port_name==web), Replace(instance := pod:port). *)
Definition scenario_rules : list relabel_Config :=
  [ KeepRule "__meta_kubernetes_namespace" "ns1";
    KeepRule "__meta_kubernetes_pod_label_app" "x";
    ReplaceRule ["__meta_kubernetes_namespace"%string] None EmptyString "namespace";
    ReplaceRule [] None "app" "job";
    KeepRule "__meta_kubernetes_pod_container_port_name" "web";
    ReplaceRule ["__meta_kubernetes_pod_name"%string;
                 "__meta_kubernetes_pod_container_port_name"%string]
                (Some "(.+);(.+)"%string) "$1:$2" "instance" ].

Definition scenario_cfg : ScrapeConfig :=
  {| JobName := "PodMonitoring/ns1/app/web";
     ServiceDiscoveryConfigs :=
       [ {| HTTPClientConfig_ := DefaultHTTPClientConfig;
            Role := "pod";
            Selectors := [ {| SelectorRole := "pod";
                              Field := "spec.nodeName=$(NODE_NAME)" |} ] |} ];
     MetricsPath := "/metrics";
     ScrapeInterval := 30000000000;
     ScrapeTimeout := 30000000000;
     RelabelConfigs := scenario_rules |}.

(** The job of an endpoint with the port [web] and interval [30s] under an
    empty selector. *)
Definition scenario_cfg_bare : ScrapeConfig :=
  {| JobName := "PodMonitoring/ns1/app/web";
     ServiceDiscoveryConfigs :=
       [ {| HTTPClientConfig_ := DefaultHTTPClientConfig;
            Role := "pod";
            Selectors := [ {| SelectorRole := "pod";
                              Field := "spec.nodeName=$(NODE_NAME)" |} ] |} ];
     MetricsPath := "/metrics";
     ScrapeInterval := 30000000000;
     ScrapeTimeout := 30000000000;
     RelabelConfigs :=
       [ KeepRule "__meta_kubernetes_namespace" "ns1";
         ReplaceRule ["__meta_kubernetes_namespace"%string] None EmptyString
                     "namespace";
         ReplaceRule [] None "app" "job";
         KeepRule "__meta_kubernetes_pod_container_port_name" "web";
         ReplaceRule ["__meta_kubernetes_pod_name"%string;
                      "__meta_kubernetes_pod_container_port_name"%string]
                     (Some "(.+);(.+)"%string) "$1:$2" "instance" ] |}.

(** Exact-match labels [{b: 2, a: 1}]. *)
Definition labels_b_a : gmap string string :=
  {[ "b"%string := "2"%string; "a"%string := "1"%string ]}.

(** An expression with an operator outside the four. *)
Definition expression_typo : LabelSelectorRequirement :=
  {| Key := "tier"; Operator := "in"; Values := ["web"%string] |}.

Definition expression_exists : LabelSelectorRequirement :=
  {| Key := "app"; Operator := "Exists"; Values := [] |}.

(** A mapping with no [to] whose [from] is a reserved label. *)
Definition mapping_namespace_default : LabelMapping :=
  {| From := "namespace"; To := EmptyString |}.

(** A mapping whose [to] is a reserved label. *)
Definition mapping_to_namespace : LabelMapping :=
  {| From := "team"; To := "namespace" |}.

(** Two endpoints, the second with no port. *)
Definition two_endpoints : PodMonitoring :=
  target ∅ [] [endpoint port_web "30s" EmptyString;
               endpoint port_unset "30s" EmptyString] [].

(** One endpoint whose port has both fields populated. *)
Definition both_ports : PodMonitoring :=
  target ∅ [] [endpoint port_both "30s" EmptyString] [].

(** The rules before the port for a resource with an empty selector. *)
Definition bare_selector_rules : list relabel_Config :=
  [ KeepRule "__meta_kubernetes_namespace" "ns1";
    ReplaceRule ["__meta_kubernetes_namespace"%string] None EmptyString "namespace";
    ReplaceRule [] None "app" "job" ].

(** Two expressions, the second with an operator outside the four. *)
Definition with_typo : PodMonitoring :=
  target ∅ [expression_exists; expression_typo]
         [endpoint port_web "30s" EmptyString] [].

(** One endpoint with no port, interval [30s] and no timeout. *)
Definition no_port_30s : PodMonitoring :=
  target ∅ [] [endpoint port_unset "30s" EmptyString] [].

(** One endpoint with interval [30s] and timeout [45s]. *)
Definition timeout_45s : PodMonitoring :=
  target ∅ [] [endpoint port_web "30s" "45s"] [].

(** One endpoint with a port and no interval. *)
Definition no_interval : PodMonitoring :=
  target ∅ [] [endpoint port_web EmptyString EmptyString] [].

(** A resource whose only mapping has no [to] and the reserved [from]. *)
Definition remap_namespace : PodMonitoring :=
  target ∅ [] [endpoint port_web "30s" EmptyString] [mapping_namespace_default].

(** One endpoint with no port and no interval. *)
Definition no_port_no_interval : PodMonitoring :=
  target ∅ [] [endpoint port_unset EmptyString EmptyString] [].

(** One endpoint whose timeout is its interval. *)
Definition timeout_equal : PodMonitoring :=
  target ∅ [] [endpoint port_web "30s" "30s"] [].

(** A port name that does not compile, with a reserved [to] and durations
    that do not parse besides. *)
Definition port_unbalanced : IntOrString :=
  {| Type_ := intstr_String; IntVal := 0; StrVal := "(" |}.

Definition many_faults : PodMonitoring :=
  target ∅ [] [endpoint port_unbalanced "soon" "later"] [mapping_to_namespace].

(** The endpoint of the scenario and one with the port [8080]. *)
Definition two_ports : PodMonitoring :=
  target ∅ [] [endpoint port_web "30s" EmptyString;
               endpoint port_8080 "1m" "10s"] [].

(** Two endpoints on the port [web], with different paths. *)
Definition same_port : PodMonitoring :=
  target ∅ []
    [ {| Port := port_web; Path := "/metrics"; Interval := "30s";
         Timeout := EmptyString |};
      {| Port := port_web; Path := "/federate"; Interval := "1m";
         Timeout := EmptyString |} ] [].

(** Two mappings, the second with no [to]. *)
Definition two_mappings : list LabelMapping :=
  [ {| From := "team"; To := "squad" |};
    {| From := "app.kubernetes.io/name"; To := EmptyString |} ].

(** An exact-match label whose value does not compile. *)
Definition bad_selector : PodMonitoring :=
  target {[ "app"%string := "("%string ]} []
         [endpoint port_web "30s" EmptyString] [].

(** ** Status conditions *)

(** [metav1.Time], as an instant. *)
Definition Time : Type := Z.

(** [ConfigurationCreateSuccess] indicates that the config generated from the
    monitoring resource was created successfully. *)
Definition ConfigurationCreateSuccess : string := "ConfigurationCreateSuccess".

(** [corev1.ConditionUnknown]. *)
Definition ConditionUnknown : string := "Unknown".

(** [MonitoringCondition] describes a condition of a PodMonitoring. *)
Record MonitoringCondition : Type := {
  ConditionType : string;
  Status : string;
  LastUpdateTime : Time;
  LastTransitionTime : Time;
  Reason : string;
  Message : string
}.

(** [NewDefaultConditions] returns a list of default conditions for at the
    given time for a [PodMonitoringStatus] if never explicitly set. *)
Definition NewDefaultConditions (now : Time) : list MonitoringCondition :=
  [ {| ConditionType := ConfigurationCreateSuccess;
       Status := ConditionUnknown;
       LastUpdateTime := now;
       LastTransitionTime := now;
       Reason := EmptyString;
       Message := EmptyString |} ].

(** ** The patterns of a resource *)

Section Patterns.
Context `{Imports}.

(** [relabel.NewRegexp] accepts the pattern. *)
Definition patternCompiles (s : string) : bool :=
  regexp_Compile_ok ("^(?:" +:+ s +:+ ")$").

(** A run that hands [patterns] to [MustNewRegexp] one after the other: it
    returns a value when all of them compile, and otherwise panics on the
    first that does not. *)
Definition stopsAtFirstBadPattern {A} (patterns : list string) (r : result A)
    : Prop :=
  (Forall (λ s, patternCompiles s = true) patterns ∧ ∃ a, r = Ok a)
  ∨ (∃ before s after,
       patterns = before ++ s :: after
       ∧ Forall (λ s', patternCompiles s' = true) before
       ∧ patternCompiles s = false
       ∧ r = Panic (RegexpPanic s)).

End Patterns.

(** The pattern an expression hands to [MustNewRegexp], for the two operators
    that build one from the values. *)
Definition expressionPattern (exp : LabelSelectorRequirement) : option string :=
  if decide (Operator exp = LabelSelectorOpIn) then
    Some (strings_Join (Values exp) "|")
  else if decide (Operator exp = LabelSelectorOpNotIn) then
    Some (strings_Join (Values exp) "|")
  else None.

(** The patterns the rules before the port hand to [MustNewRegexp], in the
    order of the calls: the namespace, the values of the exact-match labels by
    sorted key, the patterns of the expressions. *)
Definition selectorPatterns (pm : PodMonitoring) : list string :=
  [Namespace pm]
  ++ ((λ k, default EmptyString (MatchLabels (Selector (Spec pm)) !! k))
        <$> selectorKeys pm)
  ++ omap expressionPattern (MatchExpressions (Selector (Spec pm))).

#[global] Instance recognizedOperator_dec (op : string) :
  Decision (recognizedOperator op).
Proof. unfold recognizedOperator. apply _. Defined.

(** Every byte of the string is ASCII. *)
Definition allASCII (s : string) : Prop :=
  Forall (λ c, isASCII c = true) (list_ascii_of_string s).

(** * Properties *)

(** ** Label-name sanitization *)

Example sanitize_dots :
  sanitizeLabelName "app.kubernetes.io/name" = "app_kubernetes_io_name"%string.
Proof. reflexivity. Qed.

(** The two bytes of one rune (here U+00E9) give one underscore, a byte that
    starts no rune gives one of its own. *)
Example sanitize_runes :
  sanitizeLabelName (String "195" (String "169" "a-b")) = "_a_b"%string
  ∧ sanitizeLabelName (String "169" (String "195" "a")) = "__a"%string.
Proof. split; reflexivity. Qed.

Lemma append_cons (c : ascii) (s t : string) :
  String c s +:+ t = String c (s +:+ t).
Proof. reflexivity. Qed.

Lemma append_empty (t : string) : EmptyString +:+ t = t.
Proof. reflexivity. Qed.

Lemma byte_in_spec lo hi c :
  byte_in lo hi c = true ↔ (lo <= N_of_ascii c <= hi)%N.
Proof.
  unfold byte_in. rewrite andb_true_iff, !N.leb_le. tauto.
Qed.

Lemma validLabelChar_isASCII c : validLabelChar c = true → isASCII c = true.
Proof.
  unfold validLabelChar, isASCII. rewrite !orb_true_iff, !byte_in_spec, N.ltb_lt.
  intros [[[?|?]|?]|Heq]; try lia.
  apply Ascii.eqb_eq in Heq. subst c. reflexivity.
Qed.

Lemma byte_in_high_not_ASCII lo hi c :
  (128 <= lo)%N → byte_in lo hi c = true → isASCII c = false.
Proof.
  unfold isASCII. rewrite byte_in_spec, N.ltb_ge. lia.
Qed.

Lemma isASCII_not_byte_in lo hi c :
  (128 <= lo)%N → isASCII c = true → byte_in lo hi c = false.
Proof.
  intros Hlo Hc. destruct (byte_in lo hi c) eqn:Hb; [|done].
  rewrite (byte_in_high_not_ASCII lo hi c) in Hc; done.
Qed.

Lemma continuation_not_ASCII c : continuation c = true → isASCII c = false.
Proof. apply byte_in_high_not_ASCII. lia. Qed.

(** The bytes a rune takes after its first one lie above 0x7F. *)
Lemma DecodeRuneInString_size_high c rest :
  high_prefix (DecodeRuneInString_size c rest - 1) rest.
Proof.
  unfold DecodeRuneInString_size.
  repeat (case_match; simpl; try done);
    repeat match goal with
    | H : _ && _ = true |- _ => apply andb_true_iff in H; destruct H
    end;
    repeat split;
    eauto using continuation_not_ASCII;
    (eapply byte_in_high_not_ASCII; [|eassumption]; lia).
Qed.

(** An ASCII byte ends the rune before it. *)
Lemma DecodeRuneInString_size_app c pre a post :
  isASCII a = true →
  DecodeRuneInString_size c (pre +:+ String a post) = DecodeRuneInString_size c pre.
Proof.
  intros Ha.
  assert (Hcont : continuation a = false)
    by (apply isASCII_not_byte_in; [lia|done]).
  assert (H3 : ∀ b1 b2 : bool,
    byte_in (if b1 then 160 else 128) (if b2 then 159 else 191) a = false)
    by (intros [] ?; apply isASCII_not_byte_in; (lia || done)).
  assert (H4 : ∀ b1 b2 : bool,
    byte_in (if b1 then 144 else 128) (if b2 then 143 else 191) a = false)
    by (intros [] ?; apply isASCII_not_byte_in; (lia || done)).
  unfold DecodeRuneInString_size.
  destruct pre as [|c1 [|c2 [|c3 pre]]]; rewrite ?append_cons, ?append_empty;
    rewrite ?Hcont, ?H3, ?H4, ?andb_false_r; simpl;
    repeat (case_match; try done).
Qed.

Lemma ReplaceAllString_alphabet skip src :
  validLabelName (ReplaceAllString_invalidLabelChar skip src).
Proof.
  unfold validLabelName.
  revert skip. induction src as [|c rest IH]; intros skip; simpl.
  - constructor.
  - destruct skip as [|k]; [|apply IH].
    destruct (validLabelChar c) eqn:Hc; simpl; constructor; auto.
Qed.

Lemma ReplaceAllString_app_ASCII pre a post skip :
  isASCII a = true →
  high_prefix skip pre →
  ReplaceAllString_invalidLabelChar skip (pre +:+ String a post) =
  ReplaceAllString_invalidLabelChar skip pre
  +:+ String (if validLabelChar a then a else "_"%char)
             (ReplaceAllString_invalidLabelChar 0 post).
Proof.
  intros Ha. revert skip.
  induction pre as [|c pre IH]; intros skip Hskip.
  - destruct skip; [|done]. rewrite append_empty. simpl.
    destruct (validLabelChar a) eqn:Hv; [done|].
    replace (DecodeRuneInString_size a post) with 1%nat; [done|].
    unfold DecodeRuneInString_size. by rewrite Ha.
  - rewrite append_cons. simpl. destruct skip as [|k].
    + destruct (validLabelChar c).
      * rewrite append_cons. f_equal. by apply IH.
      * rewrite append_cons. f_equal.
        rewrite DecodeRuneInString_size_app by done.
        apply IH, DecodeRuneInString_size_high.
    + destruct Hskip as [_ Hk]. by apply IH.
Qed.

Lemma sanitizeLabelName_valid (name : string) :
  validLabelName (sanitizeLabelName name).
Proof. apply ReplaceAllString_alphabet. Qed.

Lemma sanitizeLabelName_in_place (pre : string) (c : ascii) (post : string) :
  isASCII c = true →
  sanitizeLabelName (pre +:+ String c post) =
  sanitizeLabelName pre
  +:+ String (if validLabelChar c then c else "_"%char) (sanitizeLabelName post).
Proof. intros Hc. unfold sanitizeLabelName. by apply ReplaceAllString_app_ASCII. Qed.



(** ** The result monad *)

Lemma bind_Ok {A B} (r : result A) (f : A → result B) (b : B) :
  r ≫= f = Ok b → ∃ a, r = Ok a ∧ f a = Ok b.
Proof. destruct r; simpl; [eauto|done..]. Qed.

Lemma wrap_Ok {A} (ctx : error → error) (r : result A) (a : A) :
  wrap ctx r = Ok a → r = Ok a.
Proof. by destruct r. Qed.

Lemma foldM_app {A B} (f : A → B → result A) (a : A) (l1 l2 : list B) :
  foldM f a (l1 ++ l2) = foldM f a l1 ≫= λ a', foldM f a' l2.
Proof.
  revert a. induction l1 as [|b l1 IH]; intros a; simpl; [done|].
  destruct (f a b); simpl; auto.
Qed.

(** A loop whose every iteration appends [h b] appends them all, in the order
    of the slice. *)
Lemma foldM_Ok_flat_map {A B} (f : list A → B → result (list A))
    (h : B → list A) :
  (∀ a b a', f a b = Ok a' → a' = a ++ h b) →
  ∀ l a out, foldM f a l = Ok out → out = a ++ flat_map h l.
Proof.
  intros Hf. induction l as [|b l IH]; intros a out; simpl.
  - intros [= <-]. by rewrite app_nil_r.
  - intros (a' & Hb & Hl)%bind_Ok.
    apply Hf in Hb as ->. apply IH in Hl as ->. by rewrite <-app_assoc.
Qed.

Lemma foldM_flat_map_Ok {A B} (f : list A → B → result (list A))
    (h : B → list A) (l : list B) :
  (∀ a b, b ∈ l → f a b = Ok (a ++ h b)) →
  ∀ a, foldM f a l = Ok (a ++ flat_map h l).
Proof.
  induction l as [|b l IH]; intros Hf a; simpl.
  - by rewrite app_nil_r.
  - rewrite Hf by left. simpl. rewrite IH, <-app_assoc; [done|].
    intros ???. apply Hf. by right.
Qed.

Lemma flat_map_singleton {A B} (g : A → B) (l : list A) :
  flat_map (λ x, [g x]) l = g <$> l.
Proof. induction l; simpl; by f_equal. Qed.

(** ** Sorting the selector keys *)

Lemma sort_Strings_Sorted (x : list string) :
  StronglySorted String.le (sort_Strings x).
Proof. apply StronglySorted_merge_sort; apply _. Qed.

Lemma sort_Strings_Permutation (x : list string) : sort_Strings x ≡ₚ x.
Proof. apply merge_sort_Permutation. Qed.

(** Sorting forgets the order in which the keys were collected. *)
Lemma sort_Strings_order (x y : list string) :
  x ≡ₚ y → sort_Strings x = sort_Strings y.
Proof.
  intros Hxy. apply (StronglySorted_unique String.le);
    [apply sort_Strings_Sorted..|].
  by rewrite !sort_Strings_Permutation.
Qed.

Lemma range_keys_NoDup (m : gmap string string) : NoDup (range_keys m).
Proof. apply NoDup_fst_map_to_list. Qed.

Lemma elem_of_range_keys (m : gmap string string) (k : string) :
  k ∈ range_keys m ↔ is_Some (m !! k).
Proof.
  unfold range_keys. rewrite list_elem_of_fmap. split.
  - intros ([k' v] & -> & Hkv). apply elem_of_map_to_list in Hkv. eauto.
  - intros [v Hv]. exists (k, v). split; [done|]. by apply elem_of_map_to_list.
Qed.

(** Any enumeration of the keys sorts to the same slice. *)
Lemma sort_Strings_range (m : gmap string string) (iterated : list string) :
  NoDup iterated →
  (∀ k, k ∈ iterated ↔ is_Some (m !! k)) →
  sort_Strings iterated = sort_Strings (range_keys m).
Proof.
  intros Hnd Hin. apply sort_Strings_order, NoDup_Permutation;
    [done|apply range_keys_NoDup|].
  intros k. by rewrite Hin, elem_of_range_keys.
Qed.

(** ** Rule generation, stage by stage *)

Section CompilerProperties.
Context `{Imports}.

Lemma NewRegexp_Ok s re : NewRegexp s = Ok re → re = {| original := s |}.
Proof. unfold NewRegexp. case_match; naive_solver. Qed.

Lemma MustNewRegexp_Ok s re : MustNewRegexp s = Ok re → re = {| original := s |}.
Proof.
  unfold MustNewRegexp. destruct (NewRegexp s) eqn:Hs; [|done..].
  intros [= <-]. by apply NewRegexp_Ok.
Qed.

Lemma MustNewRegexp_compiles s :
  regexp_Compile_ok ("^(?:" +:+ s +:+ ")$") = true →
  MustNewRegexp s = Ok {| original := s |}.
Proof. intros Hs. unfold MustNewRegexp, NewRegexp. by rewrite Hs. Qed.

Lemma MustNewRegexp_true : MustNewRegexp "true" = Ok {| original := "true" |}.
Proof. apply MustNewRegexp_compiles, Compile_true. Qed.

Lemma MustNewRegexp_merge :
  MustNewRegexp "(.+);(.+)" = Ok {| original := "(.+);(.+)" |}.
Proof. apply MustNewRegexp_compiles, Compile_merge. Qed.

Lemma namespaceFilter_Ok pm cfgs :
  namespaceFilter pm = Ok cfgs → cfgs = [namespaceRule pm].
Proof.
  unfold namespaceFilter. intros (re & ->%MustNewRegexp_Ok & [= <-])%bind_Ok.
  done.
Qed.

Lemma matchLabelFilter_Ok m cfgs k cfgs' :
  matchLabelFilter m cfgs k = Ok cfgs' → cfgs' = cfgs ++ [exactMatchRule m k].
Proof.
  unfold matchLabelFilter. intros (re & ->%MustNewRegexp_Ok & [= <-])%bind_Ok.
  done.
Qed.

Lemma matchLabelsFilters_Ok iterated m cfgs cfgs' :
  matchLabelsFilters iterated m cfgs = Ok cfgs' →
  cfgs' = cfgs ++ (exactMatchRule m <$> sort_Strings iterated).
Proof.
  unfold matchLabelsFilters. intros Hf.
  rewrite <-flat_map_singleton.
  revert Hf. apply foldM_Ok_flat_map. apply matchLabelFilter_Ok.
Qed.

Lemma matchExpressionFilter_Ok cfgs exp cfgs' :
  matchExpressionFilter cfgs exp = Ok cfgs' →
  cfgs' = cfgs ++ expressionRules exp.
Proof.
  unfold matchExpressionFilter, expressionRules,
    LabelSelectorOpIn, LabelSelectorOpNotIn, LabelSelectorOpExists,
    LabelSelectorOpDoesNotExist.
  repeat case_decide;
    try (intros (re & ->%MustNewRegexp_Ok & [= <-])%bind_Ok; done).
  intros [= <-]. by rewrite app_nil_r.
Qed.

Lemma matchExpressionsFilters_Ok exprs cfgs cfgs' :
  matchExpressionsFilters exprs cfgs = Ok cfgs' →
  cfgs' = cfgs ++ flat_map expressionRules exprs.
Proof. apply foldM_Ok_flat_map, matchExpressionFilter_Ok. Qed.

(** An operator outside the four appends nothing and does not fail. *)
Lemma matchExpressionFilter_unrecognized cfgs exp :
  ¬ recognizedOperator (Operator exp) →
  matchExpressionFilter cfgs exp = Ok cfgs.
Proof.
  unfold recognizedOperator, matchExpressionFilter. intros Hop.
  repeat case_decide; tauto.
Qed.

Lemma cleanLabels_eq pm cfgs : cleanLabels pm cfgs = cfgs ++ identityRules pm.
Proof. unfold cleanLabels, identityRules. by rewrite <-app_assoc. Qed.

Lemma selectorCfgs_Ok pm cfgs :
  selectorCfgs pm = Ok cfgs →
  cfgs = [namespaceRule pm]
         ++ (exactMatchRule (MatchLabels (Selector (Spec pm))) <$> selectorKeys pm)
         ++ flat_map expressionRules (MatchExpressions (Selector (Spec pm)))
         ++ identityRules pm.
Proof.
  unfold selectorCfgs.
  intros (c1 & ->%namespaceFilter_Ok & Hs)%bind_Ok.
  apply bind_Ok in Hs as (c2 & ->%matchLabelsFilters_Ok & Hs).
  apply bind_Ok in Hs as (c3 & ->%matchExpressionsFilters_Ok & [= <-]).
  rewrite cleanLabels_eq. unfold selectorKeys. simpl. by rewrite <-?app_assoc.
Qed.

(** The three branches of the port filter. *)
Lemma portFilter_named ep cfgs :
  StrVal (Port ep) ≠ EmptyString →
  portFilter ep cfgs =
  if regexp_Compile_ok ("^(?:" +:+ StrVal (Port ep) +:+ ")$")
  then Ok (cfgs ++ namedPortRules (StrVal (Port ep)))
  else Err (InvalidPortName (Port ep) (RegexpError (StrVal (Port ep)))).
Proof.
  intros Hs. unfold portFilter. rewrite decide_True by done.
  unfold NewRegexp. case_match; simpl; [|done].
  rewrite MustNewRegexp_merge. simpl. by rewrite <-app_assoc.
Qed.

Lemma portFilter_numeric ep cfgs :
  StrVal (Port ep) = EmptyString → IntVal (Port ep) ≠ 0 →
  portFilter ep cfgs = Ok (cfgs ++ numericPortRules (IntVal (Port ep))).
Proof.
  intros Hs Hi. unfold portFilter.
  rewrite decide_False, decide_True by (done || by intros []).
  by rewrite <-app_assoc.
Qed.

Lemma portFilter_missing ep cfgs :
  StrVal (Port ep) = EmptyString → IntVal (Port ep) = 0 →
  portFilter ep cfgs = Err MissingPort.
Proof.
  intros Hs Hi. unfold portFilter.
  by rewrite !decide_False by (by intros []).
Qed.

Lemma portFilter_Ok ep cfgs cfgs' :
  portFilter ep cfgs = Ok cfgs' → cfgs' = cfgs ++ portRules (Port ep).
Proof.
  unfold portRules.
  destruct (decide (StrVal (Port ep) ≠ EmptyString)) as [Hs|Hs].
  - rewrite portFilter_named by done. case_match; naive_solver.
  - apply dec_stable in Hs.
    destruct (decide (IntVal (Port ep) = 0)) as [Hi|Hi].
    + by rewrite portFilter_missing.
    + rewrite portFilter_numeric by done. naive_solver.
Qed.

Lemma labelMappingRelabelConfig_Ok prefix cfgs m cfgs' :
  labelMappingRelabelConfig prefix cfgs m = Ok cfgs' →
  cfgs' = cfgs ++ [mappingRule prefix m].
Proof.
  unfold labelMappingRelabelConfig, mappingRule, resolvedTarget.
  case_match; [done|]. intros [= <-]. by case_decide.
Qed.

Lemma labelMappingRelabelConfigs_Ok mappings prefix cfgs :
  labelMappingRelabelConfigs mappings prefix = Ok cfgs →
  cfgs = mappingRule prefix <$> mappings.
Proof.
  unfold labelMappingRelabelConfigs. intros Hf.
  rewrite <-flat_map_singleton. revert Hf.
  apply (foldM_Ok_flat_map _ (λ m, [mappingRule prefix m])).
  apply labelMappingRelabelConfig_Ok.
Qed.

Lemma relabelCfgsOf_Ok pm ep cfgs :
  relabelCfgsOf pm ep = Ok cfgs → cfgs = stageOrder pm ep.
Proof.
  unfold relabelCfgsOf, targetLabelMappings.
  intros (c1 & ->%selectorCfgs_Ok & Hr)%bind_Ok.
  apply bind_Ok in Hr as (c2 & ->%portFilter_Ok & Hr).
  apply bind_Ok in Hr as (c3 & ->%wrap_Ok%labelMappingRelabelConfigs_Ok & [= <-]).
  unfold stageOrder. simpl. by rewrite <-?app_assoc.
Qed.

Lemma endpointAt_Ok pm index ep :
  endpointAt pm index = Ok ep ↔ Endpoints (Spec pm) !! index = Some ep.
Proof. unfold endpointAt. case_match; naive_solver. Qed.

Lemma selectorKeys_keys pm :
  StronglySorted String.le (selectorKeys pm)
  ∧ NoDup (selectorKeys pm)
  ∧ ∀ k, k ∈ selectorKeys pm ↔ is_Some (MatchLabels (Selector (Spec pm)) !! k).
Proof.
  unfold selectorKeys. split; [apply sort_Strings_Sorted|]. split.
  - rewrite sort_Strings_Permutation. apply range_keys_NoDup.
  - intros k. rewrite sort_Strings_Permutation. apply elem_of_range_keys.
Qed.

(** What [endpontScrapeConfig] returns once the endpoint and its rules are
    there. *)
Lemma endpontScrapeConfig_durations pm index ep cfgs :
  Endpoints (Spec pm) !! index = Some ep →
  relabelCfgsOf pm ep = Ok cfgs →
  endpontScrapeConfig pm index = endpontScrapeConfig_rest pm ep cfgs.
Proof.
  intros Hep Hcfgs. unfold endpontScrapeConfig.
  apply endpointAt_Ok in Hep. rewrite Hep. simpl. by rewrite Hcfgs.
Qed.

Lemma endpontScrapeConfig_Ok pm index cfg :
  endpontScrapeConfig pm index = Ok cfg →
  ∃ ep, Endpoints (Spec pm) !! index = Some ep
      ∧ relabelCfgsOf pm ep = Ok (RelabelConfigs cfg).
Proof.
  unfold endpontScrapeConfig.
  intros (ep & Hep%endpointAt_Ok & Hc)%bind_Ok.
  apply bind_Ok in Hc as (cfgs & Hcfgs & Hc).
  unfold endpontScrapeConfig_rest in Hc.
  apply bind_Ok in Hc as ([interval timeout] & _ & [= <-]).
  eauto.
Qed.

(** C5. The rules of a compiled endpoint come in the stage order: the Keep
    rule on the resource's namespace, the Keep rules of the exact-match labels
    by sorted key, the rules of the expressions in declaration order, the two
    identity Replace rules (namespace, then job set to the resource's name),
    the port rules, and the label-mapping Replace rules in declaration
    order. *)
Theorem stage_order pm index cfg :
  endpontScrapeConfig pm index = Ok cfg →
  ∃ ep, Endpoints (Spec pm) !! index = Some ep
      ∧ RelabelConfigs cfg = stageOrder pm ep
      ∧ StronglySorted String.le (selectorKeys pm)
      ∧ NoDup (selectorKeys pm)
      ∧ ∀ k, k ∈ selectorKeys pm
             ↔ is_Some (MatchLabels (Selector (Spec pm)) !! k).
Proof.
  intros (ep & Hep & Hcfgs)%endpontScrapeConfig_Ok.
  exists ep. split; [done|]. split; [by apply relabelCfgsOf_Ok|].
  apply selectorKeys_keys.
Qed.

(** C6. The Keep rules of the exact-match labels follow the sorted order of
    the keys, whatever order the map yielded the keys in: the loop over any
    enumeration [iterated] of the keys behaves as the loop over any other,
    the sorted keys are increasing, and the rules appended are those of the
    sorted keys, one after the other (appended for sure when every value
    compiles). *)
Theorem exact_match_sorted (matchLabels : gmap string string)
    (iterated : list string) (cfgs : list relabel_Config) :
  NoDup iterated →
  (∀ k, k ∈ iterated ↔ is_Some (matchLabels !! k)) →
  StronglySorted String.le (sort_Strings iterated)
  ∧ (∀ iterated',
       NoDup iterated' →
       (∀ k, k ∈ iterated' ↔ is_Some (matchLabels !! k)) →
       sort_Strings iterated' = sort_Strings iterated
       ∧ matchLabelsFilters iterated' matchLabels cfgs =
         matchLabelsFilters iterated matchLabels cfgs)
  ∧ (∀ cfgs',
       matchLabelsFilters iterated matchLabels cfgs = Ok cfgs' →
       cfgs' = cfgs ++ (exactMatchRule matchLabels <$> sort_Strings iterated))
  ∧ ((∀ k v, matchLabels !! k = Some v →
             regexp_Compile_ok ("^(?:" +:+ v +:+ ")$") = true) →
     matchLabelsFilters iterated matchLabels cfgs =
     Ok (cfgs ++ (exactMatchRule matchLabels <$> sort_Strings iterated))).
Proof.
  intros Hnd Hin. split; [apply sort_Strings_Sorted|]. split; [|split].
  - intros iterated' Hnd' Hin'.
    assert (sort_Strings iterated' = sort_Strings iterated) as Heq.
    { rewrite (sort_Strings_range matchLabels iterated) by done.
      by apply sort_Strings_range. }
    split; [done|]. unfold matchLabelsFilters. by rewrite Heq.
  - intros cfgs'. apply matchLabelsFilters_Ok.
  - intros Hv. unfold matchLabelsFilters. rewrite <-flat_map_singleton.
    apply (foldM_flat_map_Ok _ (λ k, [exactMatchRule matchLabels k])).
    intros a k Hk. rewrite sort_Strings_Permutation in Hk.
    apply Hin in Hk as [v Hk]. unfold matchLabelFilter, exactMatchRule.
    rewrite Hk. simpl. by rewrite (MustNewRegexp_compiles v) by eauto.
Qed.

(** C7. An expression whose operator is none of In, NotIn, Exists and
    DoesNotExist adds no rule and no failure: its iteration returns the rules
    unchanged, and the endpoint compiles to what it compiles to with the
    expression removed. *)
Theorem unrecognized_operator_ignored pm before exp after :
  MatchExpressions (Selector (Spec pm)) = before ++ exp :: after →
  ¬ recognizedOperator (Operator exp) →
  (∀ cfgs, matchExpressionFilter cfgs exp = Ok cfgs)
  ∧ (∀ cfgs, matchExpressionsFilters (before ++ exp :: after) cfgs =
             matchExpressionsFilters (before ++ after) cfgs)
  ∧ ∀ index, endpontScrapeConfig pm index =
             endpontScrapeConfig (withMatchExpressions pm (before ++ after)) index.
Proof.
  intros Hexprs Hop.
  assert (∀ cfgs, matchExpressionsFilters (before ++ exp :: after) cfgs =
                  matchExpressionsFilters (before ++ after) cfgs) as Hskip.
  { intros cfgs. unfold matchExpressionsFilters. rewrite !foldM_app.
    destruct (foldM matchExpressionFilter cfgs before); simpl; [|done..].
    by rewrite matchExpressionFilter_unrecognized. }
  split; [intros; by apply matchExpressionFilter_unrecognized|].
  split; [done|]. intros index.
  assert (selectorCfgs (withMatchExpressions pm (before ++ after)) =
          selectorCfgs pm) as Hsel.
  { unfold selectorCfgs, namespaceFilter, cleanLabels.
    cbn [withMatchExpressions Namespace Name Spec Selector MatchLabels
         MatchExpressions].
    rewrite Hexprs.
    destruct (MustNewRegexp (Namespace pm)); simpl; [|done..].
    destruct (matchLabelsFilters _ _ _); simpl; [|done..].
    by rewrite Hskip. }
  unfold endpontScrapeConfig, endpointAt, relabelCfgsOf, targetLabelMappings.
  cbn [withMatchExpressions Namespace Name Spec Endpoints TargetLabels_].
  by rewrite Hsel.
Qed.

(** C8. Validation of an update does not look at the prior state: it returns
    what validation of a creation returns for the new state, whatever the old
    object is; validation of a deletion always succeeds. *)
Theorem validation_entry_points {Object1 Object2 : Type}
    (pm : PodMonitoring) (old1 : Object1) (old2 : Object2) :
  ValidateUpdate pm old1 = ValidateUpdate pm old2
  ∧ ValidateUpdate pm old1 = ValidateCreate pm
  ∧ ValidateDelete pm = Ok tt.
Proof. done. Qed.








(** C4, as amended. For an endpoint whose rules are generated (selector,
    port and label mappings accepted) and whose interval parses: with no
    timeout the endpoint compiles and the timeout of the job is the interval;
    with a timeout that parses to more than the interval, compiling the
    endpoint returns [TimeoutExceedsInterval]. *)
Theorem timeout_bound pm index ep cfgs interval :
  Endpoints (Spec pm) !! index = Some ep →
  relabelCfgsOf pm ep = Ok cfgs →
  ParseDuration (Interval ep) = Some interval →
  (Timeout ep = EmptyString →
     ∃ cfg, endpontScrapeConfig pm index = Ok cfg
          ∧ ScrapeInterval cfg = interval ∧ ScrapeTimeout cfg = interval)
  ∧ (∀ timeout,
       ParseDuration (Timeout ep) = Some timeout → timeout > interval →
       endpontScrapeConfig pm index = Err (TimeoutExceedsInterval timeout interval)).
Proof.
  intros Hep Hcfgs Hi.
  rewrite (endpontScrapeConfig_durations pm index ep cfgs) by done.
  unfold endpontScrapeConfig_rest, scrapeDurations, ParseDuration_result.
  rewrite Hi. simpl. split.
  - intros Ht. destruct (decide (Timeout ep ≠ EmptyString)); [done|].
    simpl. eauto.
  - intros timeout Ht Hgt.
    assert (Timeout ep ≠ EmptyString) as Hne.
    { intros Hempty. rewrite Hempty, ParseDuration_empty in Ht. done. }
    destruct (decide (Timeout ep ≠ EmptyString)); [|done].
    rewrite Ht. simpl. by destruct (decide (timeout > interval)).
Qed.

(** C10, as amended. An endpoint whose interval is the empty string never
    compiles, and once its rules are generated (selector, port and label
    mappings accepted) compiling it returns the invalid-interval error: no
    default stands in for an interval that is not set. *)
Theorem empty_interval_rejected pm index ep :
  Endpoints (Spec pm) !! index = Some ep →
  Interval ep = EmptyString →
  (∀ cfg, endpontScrapeConfig pm index ≠ Ok cfg)
  ∧ (∀ cfgs, relabelCfgsOf pm ep = Ok cfgs →
       endpontScrapeConfig pm index =
       Err (InvalidInterval (DurationError EmptyString))).
Proof.
  intros Hep Hi.
  assert (∀ cfgs, relabelCfgsOf pm ep = Ok cfgs →
            endpontScrapeConfig pm index =
            Err (InvalidInterval (DurationError EmptyString))) as Herr.
  { intros cfgs Hcfgs.
    rewrite (endpontScrapeConfig_durations pm index ep cfgs) by done.
    unfold endpontScrapeConfig_rest, scrapeDurations, ParseDuration_result.
    by rewrite Hi, ParseDuration_empty. }
  split; [|done].
  intros cfg Hcfg.
  destruct (endpontScrapeConfig_Ok _ _ _ Hcfg) as (ep' & Hep' & Hcfgs).
  assert (ep' = ep) as -> by congruence.
  apply Herr in Hcfgs. congruence.
Qed.

(** The loop of [ScrapeConfigs] returns configurations exactly when every
    index compiles, and then appends them in order. *)
Lemma ScrapeConfigs_loop_Ok pm indices res out :
  ScrapeConfigs_loop pm indices res = Ok out ↔
  ∃ cs, out = res ++ cs
      ∧ Forall2 (λ i c, endpontScrapeConfig pm i = Ok c) indices cs.
Proof.
  revert res. induction indices as [|i indices IH]; intros res; simpl.
  - split.
    + intros [= <-]. exists []. by rewrite app_nil_r.
    + intros (cs & -> & ->%Forall2_nil_inv_l). by rewrite app_nil_r.
  - destruct (endpontScrapeConfig pm i) as [c|e|p] eqn:Hi.
    + rewrite IH. split.
      * intros (cs & -> & Hcs). exists (c :: cs).
        split; [by rewrite <-app_assoc|by constructor].
      * intros (cs & -> & Hcs).
        apply Forall2_cons_inv_l in Hcs as (c' & cs' & Hc' & Hcs' & ->).
        exists cs'. rewrite <-app_assoc. split; [|done].
        simpl. congruence.
    + split; [done|]. intros (cs & _ & Hcs).
      apply Forall2_cons_inv_l in Hcs as (c' & cs' & Hc' & _). congruence.
    + split; [done|]. intros (cs & _ & Hcs).
      apply Forall2_cons_inv_l in Hcs as (c' & cs' & Hc' & _). congruence.
Qed.

(** The loop stops at the first index that returns an error. *)
Lemma ScrapeConfigs_loop_Err pm before index after res err :
  Forall (λ j, ∃ c, endpontScrapeConfig pm j = Ok c) before →
  endpontScrapeConfig pm index = Err err →
  ScrapeConfigs_loop pm (before ++ index :: after) res =
  Err (InvalidEndpoint index err).
Proof.
  intros Hbefore Herr. revert res.
  induction Hbefore as [|j before [c Hj] _ IH]; intros res; simpl.
  - by rewrite Herr.
  - rewrite Hj. apply IH.
Qed.

Lemma endpontScrapeConfig_Err_lt pm index err :
  endpontScrapeConfig pm index = Err err →
  (index < length (Endpoints (Spec pm)))%nat.
Proof.
  unfold endpontScrapeConfig, endpointAt. intros Herr.
  apply lookup_lt_is_Some. destruct (Endpoints (Spec pm) !! index); [eauto|done].
Qed.

(** C1, as amended. Compilation is all-or-nothing across the resource: when
    an endpoint returns an error and the endpoints before it compile,
    [ScrapeConfigs] returns that error with the endpoint's index and no
    configuration; an endpoint that returns an error leaves no configuration
    of any endpoint; and configurations are returned exactly when every
    endpoint compiles, one per endpoint and in their order. *)
Theorem ScrapeConfigs_all_or_nothing pm :
  (∀ index err,
     endpontScrapeConfig pm index = Err err →
     (∀ j, (j < index)%nat → ∃ c, endpontScrapeConfig pm j = Ok c) →
     ScrapeConfigs pm = Err (InvalidEndpoint index err))
  ∧ (∀ index err,
       endpontScrapeConfig pm index = Err err →
       ∀ res, ScrapeConfigs pm ≠ Ok res)
  ∧ (∀ res,
       ScrapeConfigs pm = Ok res ↔
       length res = length (Endpoints (Spec pm))
       ∧ ∀ i c, res !! i = Some c → endpontScrapeConfig pm i = Ok c).
Proof.
  assert (∀ res,
       ScrapeConfigs pm = Ok res ↔
       length res = length (Endpoints (Spec pm))
       ∧ ∀ i c, res !! i = Some c → endpontScrapeConfig pm i = Ok c) as Hok.
  { intros res. unfold ScrapeConfigs. rewrite ScrapeConfigs_loop_Ok.
    set (n := length (Endpoints (Spec pm))). split.
    - intros (cs & -> & Hcs). simpl.
      apply Forall2_same_length_lookup in Hcs as [Hlen Hcs].
      rewrite length_seq in Hlen. split; [done|].
      intros i c Hc. apply (Hcs i); [|done].
      apply lookup_seq. split; [done|]. apply lookup_lt_Some in Hc. lia.
    - intros [Hlen Hres]. exists res. split; [done|].
      apply Forall2_same_length_lookup. rewrite length_seq. split; [done|].
      intros i j c [-> _]%lookup_seq Hc. by apply Hres. }
  split; [|split; [|done]].
  - intros index err Herr Hbefore. unfold ScrapeConfigs.
    pose proof (endpontScrapeConfig_Err_lt _ _ _ Herr) as Hlt.
    replace (length (Endpoints (Spec pm)))
      with (index + S (length (Endpoints (Spec pm)) - S index))%nat by lia.
    rewrite seq_app. simpl. apply ScrapeConfigs_loop_Err; [|done].
    apply Forall_forall. intros j [_ Hj]%elem_of_seq. apply Hbefore. lia.
  - intros index err Herr res [Hlen Hres]%Hok.
    pose proof (endpontScrapeConfig_Err_lt _ _ _ Herr) as Hlt.
    destruct (lookup_lt_is_Some_2 res index) as [c Hc]; [lia|].
    apply Hres in Hc. congruence.
Qed.

End CompilerProperties.

(** ** Label mappings *)

Section LabelMappingProperties.
Context `{Imports}.

Lemma isPrometheusTargetLabel_keys :
  Forall (λ k, isPrometheusTargetLabel k = true)
    [KeyProjectID; KeyLocation; KeyCluster; KeyNamespace; KeyJob; KeyInstance].
Proof.
  unfold isPrometheusTargetLabel. rewrite !Forall_cons, Forall_nil.
  repeat split; rewrite !orb_true_iff, !bool_decide_eq_true; eauto 10.
Qed.

Lemma labelMappingRelabelConfig_accept prefix cfgs m :
  isPrometheusTargetLabel (To m) = false →
  labelMappingRelabelConfig prefix cfgs m = Ok (cfgs ++ [mappingRule prefix m]).
Proof.
  intros Hm. unfold labelMappingRelabelConfig, mappingRule, resolvedTarget.
  rewrite Hm. by case_decide.
Qed.

(** A mapping whose [to] is written out and reserved is rejected, with the
    mappings before it accepted. *)
Lemma labelMapping_explicit_collision prefix before m after :
  Forall (λ m', isPrometheusTargetLabel (To m') = false) before →
  isPrometheusTargetLabel (To m) = true →
  labelMappingRelabelConfigs (before ++ m :: after) prefix =
  Err (ReservedLabelCollision (From m) (To m)).
Proof.
  intros Hbefore Hm. unfold labelMappingRelabelConfigs.
  generalize (@nil relabel_Config).
  induction Hbefore as [|m' before Hm' _ IH]; intros cfgs.
  - cbn [app foldM]. unfold labelMappingRelabelConfig. by rewrite Hm.
  - rewrite <-app_comm_cons. cbn [foldM].
    rewrite labelMappingRelabelConfig_accept by done. apply IH.
Qed.

(** The check reads [to] as written: a mapping with no [to] passes it, and
    its rule writes to [from], reserved or not. *)
Lemma labelMapping_default_unchecked prefix m :
  To m = EmptyString →
  isPrometheusTargetLabel EmptyString = false →
  labelMappingRelabelConfigs [m] prefix =
  Ok [ReplaceRule [prefix +:+ sanitizeLabelName (From m)] None EmptyString (From m)].
Proof.
  intros Hto Hempty. unfold labelMappingRelabelConfigs, labelMappingRelabelConfig.
  simpl. rewrite Hto, Hempty. by rewrite decide_True by done.
Qed.

End LabelMappingProperties.

(** ** Sanitized names in the rules *)

Section SanitizedLabels.
Context `{Imports}.






End SanitizedLabels.

(** ** The compiler on the example resources *)

(** The end-to-end scenario compiles to one job with the six rules. *)
Example scenario_compiles :
  @ScrapeConfigs reference_imports scenario = Ok [scenario_cfg].
Proof. vm_compute. reflexivity. Qed.

(** A port given by number: the instance and the address are rewritten. *)
Example numeric_port_compiles :
  @ScrapeConfigs reference_imports numeric_port =
  Ok [ {| JobName := "PodMonitoring/ns1/app/8080";
          ServiceDiscoveryConfigs := @discoveryCfgs;
          MetricsPath := "/stats";
          ScrapeInterval := 60000000000;
          ScrapeTimeout := 10000000000;
          RelabelConfigs :=
            [ KeepRule "__meta_kubernetes_namespace" "ns1";
              ReplaceRule ["__meta_kubernetes_namespace"%string] None
                          EmptyString "namespace";
              ReplaceRule [] None "app" "job";
              ReplaceRule ["__meta_kubernetes_pod_name"%string] None
                          "$1:8080" "instance";
              ReplaceRule ["__meta_kubernetes_pod_ip"%string] None
                          "$1:8080" "__address__" ] |} ].
Proof. vm_compute. reflexivity. Qed.

Lemma stage_order_witness :
  @endpontScrapeConfig reference_imports scenario 0 = Ok scenario_cfg
  ∧ ∃ ep, Endpoints (Spec scenario) !! 0%nat = Some ep
        ∧ RelabelConfigs scenario_cfg = stageOrder scenario ep
        ∧ StronglySorted String.le (selectorKeys scenario)
        ∧ NoDup (selectorKeys scenario)
        ∧ ∀ k, k ∈ selectorKeys scenario
               ↔ is_Some (MatchLabels (Selector (Spec scenario)) !! k).
Proof.
  assert (@endpontScrapeConfig reference_imports scenario 0 = Ok scenario_cfg)
    as Hc by (vm_compute; reflexivity).
  split; [exact Hc|].
  exact (@stage_order reference_imports scenario 0%nat scenario_cfg Hc).
Defined.

Lemma labels_b_a_keys (k : string) :
  k ∈ ["b"%string; "a"%string] ↔ is_Some (labels_b_a !! k).
Proof.
  unfold labels_b_a. rewrite <-elem_of_dom, dom_insert_L, dom_singleton_L.
  rewrite !elem_of_cons, elem_of_nil, elem_of_union, !elem_of_singleton. tauto.
Qed.

(** For the labels [{b: 2, a: 1}], yielded as [b] then [a], the rule of [a]
    comes before the rule of [b]. *)
Lemma exact_match_sorted_witness :
  NoDup ["b"%string; "a"%string]
  ∧ @matchLabelsFilters reference_imports ["b"%string; "a"%string] labels_b_a [] =
    Ok [ KeepRule "__meta_kubernetes_pod_label_a" "1";
         KeepRule "__meta_kubernetes_pod_label_b" "2" ].
Proof.
  assert (NoDup ["b"%string; "a"%string]) as Hnd
    by (apply (bool_decide_unpack _); vm_compute; exact I).
  split; [exact Hnd|].
  destruct (@exact_match_sorted reference_imports labels_b_a
              ["b"%string; "a"%string] [] Hnd labels_b_a_keys)
    as (_ & _ & Hrules & _).
  destruct (@matchLabelsFilters reference_imports ["b"%string; "a"%string]
              labels_b_a []) as [cfgs| |] eqn:Hf;
    [|vm_compute in Hf; discriminate Hf..].
  rewrite (Hrules cfgs eq_refl). vm_compute. reflexivity.
Defined.

Lemma unrecognized_operator_ignored_witness :
  ¬ recognizedOperator (Operator expression_typo)
  ∧ @endpontScrapeConfig reference_imports with_typo 0 =
    @endpontScrapeConfig reference_imports
      (withMatchExpressions with_typo [expression_exists]) 0.
Proof.
  assert (¬ recognizedOperator (Operator expression_typo)) as Hop.
  { unfold recognizedOperator. vm_compute. intros [Hop|[Hop|[Hop|Hop]]];
      discriminate Hop. }
  split; [exact Hop|].
  destruct (@unrecognized_operator_ignored reference_imports with_typo
              [expression_exists] expression_typo [] eq_refl Hop)
    as (_ & _ & Hsame).
  exact (Hsame 0%nat).
Defined.


(** Interval [30s] with no timeout compiles with timeout [30s]; interval
    [30s] with timeout [45s] does not compile. *)
Lemma timeout_bound_witness :
  (∃ cfg, @endpontScrapeConfig reference_imports scenario 0 = Ok cfg
        ∧ ScrapeInterval cfg = 30000000000 ∧ ScrapeTimeout cfg = 30000000000)
  ∧ @endpontScrapeConfig reference_imports timeout_45s 0 =
    Err (TimeoutExceedsInterval 45000000000 30000000000).
Proof.
  assert (@relabelCfgsOf reference_imports scenario
            (endpoint port_web "30s" EmptyString) = Ok scenario_rules)
    as Hrules1 by (vm_compute; reflexivity).
  assert (@relabelCfgsOf reference_imports timeout_45s
            (endpoint port_web "30s" "45s") =
          Ok (bare_selector_rules ++ namedPortRules "web"))
    as Hrules2 by (vm_compute; reflexivity).
  split.
  - exact (proj1 (@timeout_bound reference_imports scenario 0%nat
                    (endpoint port_web "30s" EmptyString) scenario_rules
                    30000000000 eq_refl Hrules1 eq_refl) eq_refl).
  - exact (proj2 (@timeout_bound reference_imports timeout_45s 0%nat
                    (endpoint port_web "30s" "45s")
                    (bare_selector_rules ++ namedPortRules "web")
                    30000000000 eq_refl Hrules2 eq_refl)
             45000000000 eq_refl eq_refl).
Defined.

(** An endpoint with no port, interval [30s] and no timeout does not
    compile, although its interval parses and it has no timeout. *)
Lemma timeout_default_needs_port :
  @ParseDuration reference_imports
    (Interval (endpoint port_unset "30s" EmptyString)) = Some 30000000000
  ∧ Timeout (endpoint port_unset "30s" EmptyString) = EmptyString
  ∧ Endpoints (Spec no_port_30s) !! 0%nat
    = Some (endpoint port_unset "30s" EmptyString)
  ∧ @endpontScrapeConfig reference_imports no_port_30s 0 = Err MissingPort.
Proof. vm_compute. repeat split; reflexivity. Qed.

Lemma empty_interval_rejected_witness :
  @endpontScrapeConfig reference_imports no_interval 0 =
  Err (InvalidInterval (DurationError EmptyString)).
Proof.
  assert (@relabelCfgsOf reference_imports no_interval
            (endpoint port_web EmptyString EmptyString) =
          Ok (bare_selector_rules ++ namedPortRules "web"))
    as Hrules by (vm_compute; reflexivity).
  exact (proj2 (@empty_interval_rejected reference_imports no_interval 0%nat
                  (endpoint port_web EmptyString EmptyString) eq_refl eq_refl)
           _ Hrules).
Defined.

(** An endpoint with no interval and no port fails on the port, not on the
    interval. *)
Lemma empty_interval_missing_port :
  Interval (endpoint port_unset EmptyString EmptyString) = EmptyString
  ∧ Endpoints (Spec no_port_no_interval) !! 0%nat
    = Some (endpoint port_unset EmptyString EmptyString)
  ∧ @endpontScrapeConfig reference_imports no_port_no_interval 0 =
    Err MissingPort.
Proof. vm_compute. repeat split; reflexivity. Qed.

(** The first endpoint compiles and the second does not: no configuration
    is returned, not even that of the first. *)
Lemma ScrapeConfigs_drops_compiled_endpoint :
  @endpontScrapeConfig reference_imports two_endpoints 0 = Ok scenario_cfg_bare
  ∧ @endpontScrapeConfig reference_imports two_endpoints 1 = Err MissingPort
  ∧ @ScrapeConfigs reference_imports two_endpoints =
    Err (InvalidEndpoint 1 MissingPort).
Proof. vm_compute. repeat split; reflexivity. Qed.

Lemma ScrapeConfigs_all_or_nothing_witness :
  @ScrapeConfigs reference_imports two_endpoints =
    Err (InvalidEndpoint 1 MissingPort)
  ∧ ∀ res, @ScrapeConfigs reference_imports two_endpoints ≠ Ok res.
Proof.
  assert (@endpontScrapeConfig reference_imports two_endpoints 1 =
          Err MissingPort) as Herr by (vm_compute; reflexivity).
  destruct (@ScrapeConfigs_all_or_nothing reference_imports two_endpoints)
    as (Hfirst & Hnone & _).
  split.
  - apply Hfirst; [exact Herr|].
    intros [|j] Hj; [|lia].
    exists scenario_cfg_bare. vm_compute. reflexivity.
  - exact (Hnone 1%nat MissingPort Herr).
Defined.


(** C2. The collision check reads [to] as written, before [to] defaults to
    [from]: the mapping with no [to] and [from = namespace] resolves to the
    reserved label [namespace] and is accepted all the same, its rule writes
    [namespace], and a resource with this mapping compiles; the same label
    written out as [to] is rejected. *)
Theorem default_target_not_checked :
  @isPrometheusTargetLabel reference_imports
    (resolvedTarget mapping_namespace_default) = true
  ∧ @labelMappingRelabelConfigs reference_imports [mapping_namespace_default]
      "__meta_kubernetes_pod_label_" =
    Ok [ReplaceRule ["__meta_kubernetes_pod_label_namespace"%string] None
                    EmptyString "namespace"]
  ∧ (∃ cfg, @endpontScrapeConfig reference_imports remap_namespace 0 = Ok cfg
          ∧ last (RelabelConfigs cfg) =
            Some (ReplaceRule ["__meta_kubernetes_pod_label_namespace"%string]
                              None EmptyString "namespace"))
  ∧ @labelMappingRelabelConfigs reference_imports [mapping_to_namespace]
      "__meta_kubernetes_pod_label_" =
    Err (ReservedLabelCollision "team" "namespace").
Proof.
  split; [vm_compute; reflexivity|]. split; [vm_compute; reflexivity|].
  split; [|vm_compute; reflexivity].
  eexists. split; vm_compute; reflexivity.
Qed.

(** * Further properties of the compiler *)

(** ** Sanitization *)

Lemma sanitizeLabelName_cons_ASCII (c : ascii) (rest : string) :
  isASCII c = true →
  sanitizeLabelName (String c rest) =
  String (if validLabelChar c then c else "_"%char) (sanitizeLabelName rest).
Proof.
  intros Hc.
  exact (sanitizeLabelName_in_place EmptyString c rest Hc).
Qed.

Lemma allASCII_cons (c : ascii) (s : string) :
  allASCII (String c s) ↔ isASCII c = true ∧ allASCII s.
Proof. unfold allASCII. simpl. by rewrite Forall_cons. Qed.

Lemma validLabelName_cons (c : ascii) (s : string) :
  validLabelName (String c s) ↔ validLabelChar c = true ∧ validLabelName s.
Proof. unfold validLabelName. simpl. by rewrite Forall_cons. Qed.

Lemma validLabelName_allASCII (s : string) : validLabelName s → allASCII s.
Proof.
  unfold validLabelName, allASCII. intros Hs.
  eapply Forall_impl; [exact Hs|]. intros c. apply validLabelChar_isASCII.
Qed.

Lemma sanitizeLabelName_id (name : string) :
  validLabelName name → sanitizeLabelName name = name.
Proof.
  induction name as [|c name IH]; [done|].
  intros [Hc Hname]%validLabelName_cons.
  rewrite sanitizeLabelName_cons_ASCII by by apply validLabelChar_isASCII.
  rewrite Hc. f_equal. by apply IH.
Qed.

Lemma ReplaceAllString_length skip src :
  (String.length (ReplaceAllString_invalidLabelChar skip src)
   <= String.length src)%nat.
Proof.
  revert skip. induction src as [|c rest IH]; intros skip; simpl; [done|].
  destruct skip as [|k].
  - destruct (validLabelChar c); simpl; apply le_n_S, IH.
  - etrans; [apply IH|]. lia.
Qed.

(** X15. A name is left as it is exactly when it is written in the alphabet
    of label names, and sanitizing twice is sanitizing once. *)
Theorem sanitizeLabelName_fixed_points (name : string) :
  (sanitizeLabelName name = name ↔ validLabelName name)
  ∧ sanitizeLabelName (sanitizeLabelName name) = sanitizeLabelName name.
Proof.
  split; [split|].
  - intros <-. apply sanitizeLabelName_valid.
  - apply sanitizeLabelName_id.
  - apply sanitizeLabelName_id, sanitizeLabelName_valid.
Qed.

(** X16. Sanitizing never lengthens a name, keeps the length of a name of
    ASCII characters, and yields the empty name for the empty name only. *)
Theorem sanitizeLabelName_length (name : string) :
  (String.length (sanitizeLabelName name) <= String.length name)%nat
  ∧ (allASCII name →
     String.length (sanitizeLabelName name) = String.length name)
  ∧ (sanitizeLabelName name = EmptyString ↔ name = EmptyString).
Proof.
  split; [apply ReplaceAllString_length|]. split.
  - induction name as [|c name IH]; [done|].
    intros [Hc Hname]%allASCII_cons.
    rewrite sanitizeLabelName_cons_ASCII by done. simpl. f_equal. by apply IH.
  - split; [|by intros ->].
    destruct name as [|c name]; [done|].
    unfold sanitizeLabelName. simpl. by destruct (validLabelChar c).
Qed.

(** X17. An ASCII character outside the alphabet cannot be told from an
    underscore once the name is sanitized, so two different keys of a selector
    can give rules on one and the same source label. *)
Theorem sanitizeLabelName_collisions (pre : string) (c : ascii) (post : string) :
  isASCII c = true →
  validLabelChar c = false →
  sanitizeLabelName (pre +:+ String c post) =
  sanitizeLabelName (pre +:+ String "_" post)
  ∧ ∀ matchLabels,
      SourceLabels (exactMatchRule matchLabels (pre +:+ String c post)) =
      SourceLabels (exactMatchRule matchLabels (pre +:+ String "_" post)).
Proof.
  intros Hc Hv.
  assert (sanitizeLabelName (pre +:+ String c post) =
          sanitizeLabelName (pre +:+ String "_" post)) as Heq.
  { rewrite !sanitizeLabelName_in_place by done. by rewrite Hv. }
  split; [done|]. intros matchLabels. simpl. by rewrite Heq.
Qed.

(** X18. Sanitizing goes through a concatenation whose first part is ASCII:
    a prefix written in the alphabet followed by a sanitized name is the
    sanitized form of the prefix followed by the name. *)
Theorem sanitizeLabelName_app (s t : string) :
  allASCII s →
  sanitizeLabelName (s +:+ t) = sanitizeLabelName s +:+ sanitizeLabelName t.
Proof.
  induction s as [|c s IH]; [done|].
  intros [Hc Hs]%allASCII_cons.
  rewrite append_cons, !sanitizeLabelName_cons_ASCII by done.
  rewrite append_cons. f_equal. by apply IH.
Qed.

(** ** Label mappings, endpoints and validation *)

Section Coverage.
Context `{Imports}.

(** A list satisfies a decidable property throughout, or has a first element
    that does not. *)
Lemma Forall_or_first {A} (P : A → Prop) `{∀ x, Decision (P x)} (l : list A) :
  Forall P l
  ∨ ∃ before x after, l = before ++ x :: after ∧ Forall P before ∧ ¬ P x.
Proof.
  induction l as [|x l IH]; [by left|].
  destruct (decide (P x)) as [Hx|Hx].
  - destruct IH as [Hl|(before & y & after & -> & Hbefore & Hy)].
    + left. by constructor.
    + right. exists (x :: before), y, after. split; [done|].
      split; [by constructor|done].
  - right. exists [], x, l. split; [done|]. split; [constructor|done].
Qed.

Lemma labelMappingRelabelConfigs_accept mappings prefix :
  Forall (λ m, isPrometheusTargetLabel (To m) = false) mappings →
  labelMappingRelabelConfigs mappings prefix = Ok (mappingRule prefix <$> mappings).
Proof.
  intros Hok. unfold labelMappingRelabelConfigs.
  rewrite <-flat_map_singleton.
  apply (foldM_flat_map_Ok _ (λ m, [mappingRule prefix m])).
  intros a m Hm. apply labelMappingRelabelConfig_accept.
  rewrite Forall_forall in Hok. by apply Hok.
Qed.

(** X13. The label-mapping compiler returns one Replace rule per mapping, in
    the order of the mappings, when no mapping names a reserved label as its
    [to]; otherwise it returns the collision error of the first mapping that
    does, and no rule. It never panics. *)
Theorem labelMappingRelabelConfigs_outcome mappings prefix :
  (Forall (λ m, isPrometheusTargetLabel (To m) = false) mappings
   ∧ labelMappingRelabelConfigs mappings prefix =
     Ok (mappingRule prefix <$> mappings))
  ∨ (∃ before m after,
       mappings = before ++ m :: after
       ∧ Forall (λ m', isPrometheusTargetLabel (To m') = false) before
       ∧ isPrometheusTargetLabel (To m) = true
       ∧ labelMappingRelabelConfigs mappings prefix =
         Err (ReservedLabelCollision (From m) (To m))).
Proof.
  destruct (Forall_or_first
              (λ m, isPrometheusTargetLabel (To m) = false) mappings)
    as [Hok|(before & m & after & -> & Hbefore & Hm)].
  - left. split; [done|]. by apply labelMappingRelabelConfigs_accept.
  - right. exists before, m, after. apply not_false_is_true in Hm.
    repeat split; [done..|]. by apply labelMapping_explicit_collision.
Qed.

(** X14. Every rule the label-mapping compiler returns is the Replace rule of
    the mapping at its position: it reads the prefixed, sanitized [from], and
    it writes [to], or [from] when [to] is absent. A rule whose mapping spells
    out [to] never writes a reserved label. *)
Theorem labelMappingRelabelConfigs_rules mappings prefix cfgs :
  labelMappingRelabelConfigs mappings prefix = Ok cfgs →
  length cfgs = length mappings
  ∧ ∀ i rule,
      cfgs !! i = Some rule →
      ∃ m, mappings !! i = Some m
         ∧ Action rule = Replace
         ∧ SourceLabels rule = [prefix +:+ sanitizeLabelName (From m)]
         ∧ TargetLabel rule = resolvedTarget m
         ∧ (To m ≠ EmptyString →
            isPrometheusTargetLabel (TargetLabel rule) = false).
Proof.
  intros Hcfgs.
  assert (Forall (λ m, isPrometheusTargetLabel (To m) = false) mappings) as Hok.
  { destruct (Forall_or_first
                (λ m, isPrometheusTargetLabel (To m) = false) mappings)
      as [Hok|(before & m & after & -> & Hbefore & Hm)]; [done|].
    apply not_false_is_true in Hm.
    rewrite labelMapping_explicit_collision in Hcfgs by done. done. }
  apply labelMappingRelabelConfigs_Ok in Hcfgs as ->.
  split; [apply length_fmap|].
  intros i rule (m & -> & Hm)%list_lookup_fmap_Some.
  exists m. repeat split; [done|].
  intros Hto. simpl. unfold resolvedTarget. rewrite decide_False by done.
  rewrite Forall_forall in Hok. apply Hok.
  by eapply list_elem_of_lookup_2.
Qed.

(** The loop of [ScrapeConfigs] returns an error at the first index that
    does, after indices that compile. *)
Lemma ScrapeConfigs_loop_Err_inv pm indices res e :
  ScrapeConfigs_loop pm indices res = Err e →
  ∃ before i after cause,
    indices = before ++ i :: after
    ∧ Forall (λ j, ∃ c, endpontScrapeConfig pm j = Ok c) before
    ∧ endpontScrapeConfig pm i = Err cause
    ∧ e = InvalidEndpoint i cause.
Proof.
  revert res. induction indices as [|i indices IH]; intros res; simpl; [done|].
  destruct (endpontScrapeConfig pm i) as [c|cause|p] eqn:Hi; [| |done].
  - intros (before & i' & after & cause & -> & Hbefore & Hi' & ->)%IH.
    exists (i :: before), i', after, cause.
    repeat split; [|done]. constructor; eauto.
  - intros [= <-]. exists [], i, indices, cause. repeat split; [|done].
    constructor.
Qed.

(** The loop panics where an index panics, after indices that compile. *)
Lemma ScrapeConfigs_loop_Panic_inv pm indices res p :
  ScrapeConfigs_loop pm indices res = Panic p →
  ∃ i, i ∈ indices ∧ endpontScrapeConfig pm i = Panic p.
Proof.
  revert res. induction indices as [|i indices IH]; intros res; simpl; [done|].
  destruct (endpontScrapeConfig pm i) as [c|cause|p'] eqn:Hi; [|done|].
  - intros (i' & Hi' & Hp)%IH. exists i'. split; [by right|done].
  - intros [= <-]. exists i. split; [by left|done].
Qed.

Lemma seq_split_first (n : nat) (before : list nat) (i : nat) (after : list nat) :
  seq 0 n = before ++ i :: after →
  i = length before ∧ (i < n)%nat ∧ before = seq 0 i.
Proof.
  intros Hseq.
  assert (seq 0 n !! length before = Some i) as Hi.
  { rewrite Hseq. by rewrite list_lookup_middle. }
  apply lookup_seq in Hi as [-> Hlt]. simpl. split; [done|]. split; [done|].
  apply (f_equal (take (length before))) in Hseq.
  rewrite take_app_length, take_seq in Hseq. simpl in Hlt. simpl.
  rewrite <-Hseq at 1. f_equal. lia.
Qed.

Lemma ScrapeConfigs_Ok_iff pm :
  (∃ res, ScrapeConfigs pm = Ok res) ↔
  ∀ i, (i < length (Endpoints (Spec pm)))%nat →
       ∃ c, endpontScrapeConfig pm i = Ok c.
Proof.
  unfold ScrapeConfigs. split.
  - intros [res (cs & _ & Hcs)%ScrapeConfigs_loop_Ok] i Hi.
    destruct (Forall2_lookup_l _ _ _ i i Hcs) as (c & _ & Hc); [|by eauto].
    by apply lookup_seq.
  - intros Hall.
    assert (∃ cs, Forall2 (λ i c, endpontScrapeConfig pm i = Ok c)
                    (seq 0 (length (Endpoints (Spec pm)))) cs) as [cs Hcs].
    { assert (Forall (λ i, ∃ c, endpontScrapeConfig pm i = Ok c)
                (seq 0 (length (Endpoints (Spec pm))))) as Hforall.
      { apply Forall_forall. intros i [_ Hi]%elem_of_seq. apply Hall. lia. }
      induction Hforall as [|i l [c Hc] _ [cs IH]]; [by exists []|].
      exists (c :: cs). by constructor. }
    exists cs. apply ScrapeConfigs_loop_Ok. by exists cs.
Qed.

Lemma ScrapeConfigs_first_Err pm i cause :
  endpontScrapeConfig pm i = Err cause →
  (∀ j, (j < i)%nat → ∃ c, endpontScrapeConfig pm j = Ok c) →
  ScrapeConfigs pm = Err (InvalidEndpoint i cause).
Proof.
  intros Herr Hbefore. unfold ScrapeConfigs.
  pose proof (endpontScrapeConfig_Err_lt _ _ _ Herr) as Hlt.
  replace (length (Endpoints (Spec pm)))
    with (i + S (length (Endpoints (Spec pm)) - S i))%nat by lia.
  rewrite seq_app. simpl. apply ScrapeConfigs_loop_Err; [|done].
  apply Forall_forall. intros j [_ Hj]%elem_of_seq. apply Hbefore. lia.
Qed.

(** X1. Validation of a creation succeeds exactly for a resource with at
    least one endpoint all of whose endpoints compile. *)
Theorem ValidateCreate_Ok_iff pm :
  ValidateCreate pm = Ok tt ↔
  Endpoints (Spec pm) ≠ []
  ∧ ∀ i, (i < length (Endpoints (Spec pm)))%nat →
         ∃ c, endpontScrapeConfig pm i = Ok c.
Proof.
  unfold ValidateCreate. rewrite <-ScrapeConfigs_Ok_iff.
  destruct (decide (length (Endpoints (Spec pm)) = 0%nat)) as [Hlen|Hlen].
  - split; [done|]. intros [Hne _]. by apply length_zero_iff_nil in Hlen.
  - assert (Endpoints (Spec pm) ≠ [])
      by (intros Hnil; by rewrite Hnil in Hlen).
    destruct (ScrapeConfigs pm) as [res|e|p].
    + split; [eauto|done].
    + split; [done|]. by intros [_ [res ?]].
    + split; [done|]. by intros [_ [res ?]].
Qed.

(** X2. Validation of a creation returns an error in two cases only: the
    resource has no endpoint, and the error says so; or an endpoint returns an
    error while every endpoint before it compiles, and the error is that one
    wrapped with the index of the endpoint. *)
Theorem ValidateCreate_Err_iff pm e :
  ValidateCreate pm = Err e ↔
  (Endpoints (Spec pm) = [] ∧ e = NoEndpoints)
  ∨ (∃ i cause,
       e = InvalidEndpoint i cause
       ∧ endpontScrapeConfig pm i = Err cause
       ∧ ∀ j, (j < i)%nat → ∃ c, endpontScrapeConfig pm j = Ok c).
Proof.
  unfold ValidateCreate. split.
  - destruct (decide (length (Endpoints (Spec pm)) = 0%nat)) as [Hlen|Hlen].
    { intros [= <-]. left. by apply length_zero_iff_nil in Hlen. }
    destruct (ScrapeConfigs pm) as [res|e'|p] eqn:Hs; [done| |done].
    intros [= ->]. right. unfold ScrapeConfigs in Hs.
    apply ScrapeConfigs_loop_Err_inv in Hs
      as (before & i & after & cause & Hseq & Hbefore & Herr & ->).
    apply seq_split_first in Hseq as (Hi & Hlt & ->).
    exists i, cause. split; [done|]. split; [done|].
    intros j Hj. rewrite Forall_forall in Hbefore. apply Hbefore.
    apply elem_of_seq. lia.
  - intros [[Hnil ->]|(i & cause & -> & Herr & Hbefore)].
    + rewrite Hnil. done.
    + pose proof (endpontScrapeConfig_Err_lt _ _ _ Herr) as Hlt.
      rewrite decide_False by lia.
      by rewrite (ScrapeConfigs_first_Err pm i cause).
Qed.

(** What a compiled endpoint is made of. *)
Lemma endpontScrapeConfig_Ok_inv pm index cfg :
  endpontScrapeConfig pm index = Ok cfg →
  ∃ ep interval timeout,
    Endpoints (Spec pm) !! index = Some ep
    ∧ relabelCfgsOf pm ep = Ok (RelabelConfigs cfg)
    ∧ scrapeDurations ep = Ok (interval, timeout)
    ∧ cfg = {| JobName := "PodMonitoring/" +:+ Namespace pm +:+ "/" +:+ Name pm
                          +:+ "/" +:+ IntOrString_String (Port ep);
               ServiceDiscoveryConfigs := discoveryCfgs;
               MetricsPath := if decide (Path ep ≠ EmptyString)
                              then Path ep else "/metrics"%string;
               ScrapeInterval := interval;
               ScrapeTimeout := timeout;
               RelabelConfigs := RelabelConfigs cfg |}.
Proof.
  unfold endpontScrapeConfig.
  intros (ep & Hep%endpointAt_Ok & Hc)%bind_Ok.
  apply bind_Ok in Hc as (cfgs & Hcfgs & Hc).
  unfold endpontScrapeConfig_rest in Hc.
  apply bind_Ok in Hc as ([interval timeout] & Hd & [= <-]).
  exists ep, interval, timeout. done.
Qed.

Lemma scrapeDurations_Ok ep interval timeout :
  scrapeDurations ep = Ok (interval, timeout) →
  ParseDuration (Interval ep) = Some interval
  ∧ (if decide (Timeout ep = EmptyString) then timeout = interval
     else ParseDuration (Timeout ep) = Some timeout)
  ∧ timeout <= interval.
Proof.
  unfold scrapeDurations, ParseDuration_result.
  destruct (ParseDuration (Interval ep)) as [i|]; simpl; [|done].
  destruct (decide (Timeout ep ≠ EmptyString)) as [Ht|Ht].
  - rewrite decide_False by done.
    destruct (ParseDuration (Timeout ep)) as [t|]; simpl; [|done].
    destruct (decide (t > i)); [done|]. intros [= <- <-].
    split; [done|]. split; [done|lia].
  - apply dec_stable in Ht. rewrite decide_True by done.
    intros [= <- <-]. split; [done|]. split; [done|lia].
Qed.

(** X3. In every compiled endpoint the interval of the job is what the
    interval of the endpoint parses to, the timeout of the job is what the
    timeout of the endpoint parses to, or the interval when the endpoint has
    no timeout, and the timeout of the job is at most its interval. *)
Theorem compiled_durations pm index cfg :
  endpontScrapeConfig pm index = Ok cfg →
  ∃ ep, Endpoints (Spec pm) !! index = Some ep
      ∧ ParseDuration (Interval ep) = Some (ScrapeInterval cfg)
      ∧ (if decide (Timeout ep = EmptyString)
         then ScrapeTimeout cfg = ScrapeInterval cfg
         else ParseDuration (Timeout ep) = Some (ScrapeTimeout cfg))
      ∧ ScrapeTimeout cfg <= ScrapeInterval cfg.
Proof.
  intros (ep & interval & timeout & Hep & _ & Hd & ->)%endpontScrapeConfig_Ok_inv.
  exists ep. split; [done|]. simpl. by apply scrapeDurations_Ok.
Qed.

(** X4. A timeout that parses to no more than the interval is accepted, the
    interval itself included: once the rules of the endpoint are generated
    the endpoint compiles, with that timeout and those rules. *)
Theorem timeout_within_interval pm index ep cfgs interval timeout :
  Endpoints (Spec pm) !! index = Some ep →
  relabelCfgsOf pm ep = Ok cfgs →
  ParseDuration (Interval ep) = Some interval →
  ParseDuration (Timeout ep) = Some timeout →
  timeout <= interval →
  ∃ cfg, endpontScrapeConfig pm index = Ok cfg
       ∧ ScrapeInterval cfg = interval
       ∧ ScrapeTimeout cfg = timeout
       ∧ RelabelConfigs cfg = cfgs.
Proof.
  intros Hep Hcfgs Hi Ht Hle.
  rewrite (endpontScrapeConfig_durations pm index ep cfgs) by done.
  unfold endpontScrapeConfig_rest, scrapeDurations, ParseDuration_result.
  rewrite Hi. simpl.
  assert (Timeout ep ≠ EmptyString) as Hne.
  { intros Hempty. rewrite Hempty, ParseDuration_empty in Ht. done. }
  destruct (decide (Timeout ep ≠ EmptyString)); [|done].
  rewrite Ht. simpl. destruct (decide (timeout > interval)); [lia|].
  simpl. eauto.
Qed.

(** X5. The checks of an endpoint run in the order port, label mappings,
    interval, timeout, and the first that fails decides the error: a port
    name that does not compile gives the invalid-port-name error whatever the
    mappings and the durations are; with the port resolved, a rejected mapping
    gives its error wrapped as invalid target labels whatever the durations
    are; with the rules generated, an interval that does not parse gives the
    invalid-interval error whatever the timeout is, and a timeout that does
    not parse the invalid-timeout error. *)
Theorem error_precedence pm index ep sel :
  Endpoints (Spec pm) !! index = Some ep →
  selectorCfgs pm = Ok sel →
  (StrVal (Port ep) ≠ EmptyString →
   patternCompiles (StrVal (Port ep)) = false →
   endpontScrapeConfig pm index =
   Err (InvalidPortName (Port ep) (RegexpError (StrVal (Port ep)))))
  ∧ (∀ cfgs e,
       portFilter ep sel = Ok cfgs →
       labelMappingRelabelConfigs (FromPod (TargetLabels_ (Spec pm)))
         "__meta_kubernetes_pod_label_" = Err e →
       endpontScrapeConfig pm index = Err (InvalidTargetLabels e))
  ∧ (∀ cfgs,
       relabelCfgsOf pm ep = Ok cfgs →
       ParseDuration (Interval ep) = None →
       endpontScrapeConfig pm index =
       Err (InvalidInterval (DurationError (Interval ep))))
  ∧ (∀ cfgs interval,
       relabelCfgsOf pm ep = Ok cfgs →
       ParseDuration (Interval ep) = Some interval →
       Timeout ep ≠ EmptyString →
       ParseDuration (Timeout ep) = None →
       endpontScrapeConfig pm index =
       Err (InvalidTimeout (DurationError (Timeout ep)))).
Proof.
  intros Hep Hsel.
  assert (endpontScrapeConfig pm index =
          relabelCfgsOf pm ep ≫= λ relabelCfgs,
          endpontScrapeConfig_rest pm ep relabelCfgs) as Hunfold.
  { unfold endpontScrapeConfig. apply endpointAt_Ok in Hep. by rewrite Hep. }
  split; [|split; [|split]].
  - intros Hs Hc. rewrite Hunfold. unfold relabelCfgsOf. rewrite Hsel. simpl.
    rewrite portFilter_named by done. unfold patternCompiles in Hc.
    by rewrite Hc.
  - intros cfgs e Hport Hmap. rewrite Hunfold.
    unfold relabelCfgsOf, targetLabelMappings. rewrite Hsel. simpl.
    rewrite Hport. simpl. by rewrite Hmap.
  - intros cfgs Hcfgs Hi.
    rewrite (endpontScrapeConfig_durations pm index ep cfgs) by done.
    unfold endpontScrapeConfig_rest, scrapeDurations, ParseDuration_result.
    by rewrite Hi.
  - intros cfgs interval Hcfgs Hi Hne Ht.
    rewrite (endpontScrapeConfig_durations pm index ep cfgs) by done.
    unfold endpontScrapeConfig_rest, scrapeDurations, ParseDuration_result.
    rewrite Hi. simpl. destruct (decide (Timeout ep ≠ EmptyString)); [|done].
    by rewrite Ht.
Qed.

(** X6. The metrics path of a compiled endpoint is the path of the endpoint,
    or [/metrics] when the endpoint has none; it is never empty. *)
Theorem compiled_metrics_path pm index cfg :
  endpontScrapeConfig pm index = Ok cfg →
  ∃ ep, Endpoints (Spec pm) !! index = Some ep
      ∧ MetricsPath cfg =
        (if decide (Path ep = EmptyString) then "/metrics"%string else Path ep)
      ∧ MetricsPath cfg ≠ EmptyString.
Proof.
  intros (ep & interval & timeout & Hep & _ & _ & ->)%endpontScrapeConfig_Ok_inv.
  exists ep. split; [done|]. simpl.
  destruct (decide (Path ep = EmptyString)) as [Hp|Hp].
  - by rewrite decide_False by (intros Hne; by apply Hne).
  - by rewrite decide_True by done.
Qed.

(** X7. Every job [ScrapeConfigs] returns carries one and the same discovery
    configuration: the pods, restricted by a field selector to the node named
    by the placeholder [$(NODE_NAME)], which is left as it is. *)
Theorem ScrapeConfigs_discovery pm res :
  ScrapeConfigs pm = Ok res →
  Forall (λ cfg,
    ServiceDiscoveryConfigs cfg =
    [ {| HTTPClientConfig_ := DefaultHTTPClientConfig;
         Role := "pod";
         Selectors := [ {| SelectorRole := "pod";
                           Field := "spec.nodeName=$(NODE_NAME)" |} ] |} ]) res.
Proof.
  unfold ScrapeConfigs. intros (cs & -> & Hcs)%ScrapeConfigs_loop_Ok. simpl.
  apply Forall_forall. intros cfg Hcfg.
  apply list_elem_of_lookup in Hcfg as [i Hi].
  destruct (Forall2_lookup_r _ _ _ _ _ Hcs Hi) as (j & _ & Hc).
  by apply endpontScrapeConfig_Ok_inv
    in Hc as (ep & interval & timeout & _ & _ & _ & ->).
Qed.

Lemma ScrapeConfigs_lookup pm res i ep :
  ScrapeConfigs pm = Ok res →
  Endpoints (Spec pm) !! i = Some ep →
  ∃ c, res !! i = Some c ∧ endpontScrapeConfig pm i = Ok c.
Proof.
  unfold ScrapeConfigs. intros (cs & -> & Hcs)%ScrapeConfigs_loop_Ok Hep. simpl.
  apply (Forall2_lookup_l _ _ _ i i) in Hcs; [done|].
  apply lookup_seq. split; [done|]. by eapply lookup_lt_Some.
Qed.

(** X8. The name of a job is built from the namespace, the name of the
    resource and the printed port alone, and nothing checks that the names
    differ: two endpoints of a resource whose ports print alike come out of
    [ScrapeConfigs] as two jobs with one and the same name. *)
Theorem job_name_collision pm res i j epi epj :
  ScrapeConfigs pm = Ok res →
  i ≠ j →
  Endpoints (Spec pm) !! i = Some epi →
  Endpoints (Spec pm) !! j = Some epj →
  IntOrString_String (Port epi) = IntOrString_String (Port epj) →
  ∃ ci cj, res !! i = Some ci ∧ res !! j = Some cj
         ∧ JobName ci = JobName cj
         ∧ JobName ci = "PodMonitoring/" +:+ Namespace pm +:+ "/" +:+ Name pm
                        +:+ "/" +:+ IntOrString_String (Port epi).
Proof.
  intros Hres _ Hi Hj Hport.
  destruct (ScrapeConfigs_lookup pm res i epi Hres Hi) as (ci & Hci & Hoki).
  destruct (ScrapeConfigs_lookup pm res j epj Hres Hj) as (cj & Hcj & Hokj).
  exists ci, cj. split; [done|]. split; [done|].
  apply endpontScrapeConfig_Ok_inv
    in Hoki as (ep1 & ? & ? & Hep1 & _ & _ & ->).
  apply endpontScrapeConfig_Ok_inv
    in Hokj as (ep2 & ? & ? & Hep2 & _ & _ & ->).
  assert (ep1 = epi) as -> by congruence.
  assert (ep2 = epj) as -> by congruence.
  simpl. by rewrite Hport.
Qed.

(** X9. The rules of a port follow its name and its number, the name of the
    job follows its type tag: a port tagged as a number that carries a name
    too compiles to the rules of the named port under a job named after the
    number. *)
Theorem job_name_reads_type_tag pm index ep cfg :
  Endpoints (Spec pm) !! index = Some ep →
  endpontScrapeConfig pm index = Ok cfg →
  Type_ (Port ep) = intstr_Int →
  StrVal (Port ep) ≠ EmptyString →
  JobName cfg = "PodMonitoring/" +:+ Namespace pm +:+ "/" +:+ Name pm
                +:+ "/" +:+ Sprintf_d (IntVal (Port ep))
  ∧ ∃ before after,
      RelabelConfigs cfg = before ++ namedPortRules (StrVal (Port ep)) ++ after.
Proof.
  intros Hep Hcfg Htag Hs.
  apply endpontScrapeConfig_Ok_inv
    in Hcfg as (ep' & interval & timeout & Hep' & Hrules & _ & Hcfg).
  assert (ep' = ep) as -> by congruence.
  split.
  - rewrite Hcfg. simpl. unfold IntOrString_String. by rewrite Htag.
  - apply relabelCfgsOf_Ok in Hrules. rewrite Hrules. unfold stageOrder, portRules.
    rewrite decide_True by done.
    exists ([namespaceRule pm]
            ++ (exactMatchRule (MatchLabels (Selector (Spec pm)))
                  <$> selectorKeys pm)
            ++ flat_map expressionRules (MatchExpressions (Selector (Spec pm)))
            ++ identityRules pm),
           (mappingRule "__meta_kubernetes_pod_label_"
              <$> FromPod (TargetLabels_ (Spec pm))).
    simpl. by rewrite <-?app_assoc.
Qed.

(** X10. An endpoint compiles by itself: the result depends on the
    namespace, the name, the selector and the label mappings of the resource
    and on this endpoint, not on its index and not on the other endpoints. *)
Theorem endpoint_independence pm pm' i j ep :
  Namespace pm = Namespace pm' →
  Name pm = Name pm' →
  Selector (Spec pm) = Selector (Spec pm') →
  TargetLabels_ (Spec pm) = TargetLabels_ (Spec pm') →
  Endpoints (Spec pm) !! i = Some ep →
  Endpoints (Spec pm') !! j = Some ep →
  endpontScrapeConfig pm i = endpontScrapeConfig pm' j.
Proof.
  intros Hns Hname Hsel Hlabels Hi Hj.
  unfold endpontScrapeConfig, endpointAt. rewrite Hi, Hj. simpl.
  unfold relabelCfgsOf, selectorCfgs, namespaceFilter, cleanLabels,
    targetLabelMappings, endpontScrapeConfig_rest.
  by rewrite Hns, Hname, Hsel, Hlabels.
Qed.

(** X11. The jobs of one resource differ in their port rules only: the rules
    of two compiled endpoints are the same rules before the port, then the
    rules of each one's port, then the same label-mapping rules. *)
Theorem endpoints_share_rules pm i j ci cj epi epj :
  Endpoints (Spec pm) !! i = Some epi →
  Endpoints (Spec pm) !! j = Some epj →
  endpontScrapeConfig pm i = Ok ci →
  endpontScrapeConfig pm j = Ok cj →
  ∃ sel mappings,
    selectorCfgs pm = Ok sel
    ∧ RelabelConfigs ci = sel ++ portRules (Port epi) ++ mappings
    ∧ RelabelConfigs cj = sel ++ portRules (Port epj) ++ mappings.
Proof.
  intros Hi Hj Hci Hcj.
  apply endpontScrapeConfig_Ok in Hci as (ep1 & Hep1 & Hr1).
  apply endpontScrapeConfig_Ok in Hcj as (ep2 & Hep2 & Hr2).
  assert (ep1 = epi) as -> by congruence.
  assert (ep2 = epj) as -> by congruence.
  pose proof Hr1 as Hr1'. unfold relabelCfgsOf in Hr1'.
  apply bind_Ok in Hr1' as (sel & Hsel & _).
  apply relabelCfgsOf_Ok in Hr1. apply relabelCfgsOf_Ok in Hr2.
  exists sel, (mappingRule "__meta_kubernetes_pod_label_"
                 <$> FromPod (TargetLabels_ (Spec pm))).
  split; [done|]. apply selectorCfgs_Ok in Hsel as ->.
  rewrite Hr1, Hr2. unfold stageOrder. simpl. by rewrite <-!app_assoc.
Qed.

Lemma expressionRules_length exp :
  length (expressionRules exp) =
  if decide (recognizedOperator (Operator exp)) then 1%nat else 0%nat.
Proof.
  unfold expressionRules, recognizedOperator, LabelSelectorOpIn,
    LabelSelectorOpNotIn, LabelSelectorOpExists, LabelSelectorOpDoesNotExist.
  repeat case_decide; simpl; tauto.
Qed.

Lemma flat_map_expressionRules_length exprs :
  length (flat_map expressionRules exprs) =
  length (filter (λ exp, recognizedOperator (Operator exp)) exprs).
Proof.
  induction exprs as [|exp exprs IH]; [done|]. simpl.
  rewrite length_app, expressionRules_length, IH, filter_cons.
  by case_decide.
Qed.

Lemma selectorKeys_length pm :
  length (selectorKeys pm) = size (MatchLabels (Selector (Spec pm))).
Proof.
  unfold selectorKeys. rewrite sort_Strings_Permutation.
  unfold range_keys. by rewrite length_fmap, length_map_to_list.
Qed.

(** X12. A compiled endpoint has five rules (the namespace filter, the two
    identity rules, the two rules of the port), one more for each exact-match
    label, for each expression with one of the four operators, and for each
    label mapping. *)
Theorem compiled_rule_count pm index cfg :
  endpontScrapeConfig pm index = Ok cfg →
  length (RelabelConfigs cfg) =
  (5 + size (MatchLabels (Selector (Spec pm)))
     + length (filter (λ exp, recognizedOperator (Operator exp))
                      (MatchExpressions (Selector (Spec pm))))
     + length (FromPod (TargetLabels_ (Spec pm))))%nat.
Proof.
  intros (ep & _ & ->%relabelCfgsOf_Ok)%endpontScrapeConfig_Ok.
  unfold stageOrder.
  rewrite !length_app, !length_fmap, selectorKeys_length,
    flat_map_expressionRules_length.
  assert (length (portRules (Port ep)) = 2%nat) as ->.
  { unfold portRules. by case_decide. }
  simpl. lia.
Qed.

Lemma append_assoc (s t u : string) : (s +:+ t) +:+ u = s +:+ t +:+ u.
Proof. induction s as [|c s IH]; [done|]. rewrite !append_cons. by f_equal. Qed.

Lemma strings_Join_merge (a b : string) (rest : list string) :
  strings_Join (a :: b :: rest) "|" =
  strings_Join ((a +:+ "|" +:+ b) :: rest) "|".
Proof.
  unfold strings_Join. destruct rest as [|c rest]; [done|].
  cbn [String.concat]. by rewrite !append_assoc.
Qed.

(** X19. The values of an In or NotIn expression are joined with [|] into
    the pattern as they are, with no escaping: two values and the one value
    that spells them with a bar in between give the same rule, or the same
    panic. *)
Theorem expression_values_joined cfgs key op a b rest :
  op = LabelSelectorOpIn ∨ op = LabelSelectorOpNotIn →
  matchExpressionFilter cfgs
    {| Key := key; Operator := op; Values := a :: b :: rest |} =
  matchExpressionFilter cfgs
    {| Key := key; Operator := op; Values := (a +:+ "|" +:+ b) :: rest |}.
Proof.
  intros Hop. unfold matchExpressionFilter.
  cbn [Key Operator Values]. rewrite strings_Join_merge.
  destruct Hop as [-> | ->]; reflexivity.
Qed.

(** X20. An Exists or DoesNotExist expression always compiles, to the one
    rule on the label-present signal of its sanitized key; its values are not
    read. *)
Theorem presence_ignores_values cfgs key op values :
  op = LabelSelectorOpExists ∨ op = LabelSelectorOpDoesNotExist →
  matchExpressionFilter cfgs
    {| Key := key; Operator := op; Values := values |} =
  Ok (cfgs ++
      [ {| Action := if decide (op = LabelSelectorOpExists) then Keep else Drop;
           SourceLabels := ["__meta_kubernetes_pod_labelpresent_"
                            +:+ sanitizeLabelName key];
           Regex := Some {| original := "true" |};
           Replacement := EmptyString;
           TargetLabel := EmptyString |} ]).
Proof.
  intros [-> | ->]; unfold matchExpressionFilter; cbn [Key Operator Values];
    repeat (case_decide; try done); by rewrite MustNewRegexp_true.
Qed.

(** X25. The loop over the exact-match labels appends one Keep rule for each
    label of the map and no other: the rule of a label reads the pod label of
    its sanitized key and carries its value as the pattern (no key is looked
    up that the map lacks). *)
Theorem exact_match_rules (matchLabels : gmap string string) cfgs cfgs' :
  matchLabelsFilters (range_keys matchLabels) matchLabels cfgs = Ok cfgs' →
  ∃ rules,
    cfgs' = cfgs ++ rules
    ∧ length rules = size matchLabels
    ∧ ∀ rule,
        rule ∈ rules ↔
        ∃ k v, matchLabels !! k = Some v
             ∧ rule = KeepRule ("__meta_kubernetes_pod_label_"
                                +:+ sanitizeLabelName k) v.
Proof.
  intros ->%matchLabelsFilters_Ok.
  exists (exactMatchRule matchLabels <$> sort_Strings (range_keys matchLabels)).
  split; [done|]. split.
  - rewrite length_fmap, sort_Strings_Permutation. unfold range_keys.
    by rewrite length_fmap, length_map_to_list.
  - intros rule. rewrite list_elem_of_fmap. split.
    + intros (k & -> & Hk). rewrite sort_Strings_Permutation in Hk.
      apply elem_of_range_keys in Hk as [v Hv]. exists k, v.
      split; [done|]. unfold exactMatchRule. by rewrite Hv.
    + intros (k & v & Hv & ->). exists k. split.
      * unfold exactMatchRule. by rewrite Hv.
      * rewrite sort_Strings_Permutation. apply elem_of_range_keys. eauto.
Qed.

(** *** Panics *)

Lemma stopsAtFirstBadPattern_nil {A} (a : A) :
  stopsAtFirstBadPattern [] (Ok a).
Proof. left. split; [constructor|eauto]. Qed.

Lemma stopsAtFirstBadPattern_MustNewRegexp s :
  stopsAtFirstBadPattern [s] (MustNewRegexp s).
Proof.
  unfold MustNewRegexp, NewRegexp.
  destruct (patternCompiles s) eqn:Hs; unfold patternCompiles in Hs;
    rewrite Hs.
  - left. split; [by repeat constructor|eauto].
  - right. exists [], s, []. repeat split; [constructor|done].
Qed.

Lemma stopsAtFirstBadPattern_bind {A B} l1 l2 (r : result A) (k : A → result B) :
  stopsAtFirstBadPattern l1 r →
  (∀ a, r = Ok a → stopsAtFirstBadPattern l2 (k a)) →
  stopsAtFirstBadPattern (l1 ++ l2) (r ≫= k).
Proof.
  intros [[Hl1 [a ->]]|(before & s & after & -> & Hbefore & Hs & ->)] Hk.
  - simpl.
    destruct (Hk a eq_refl)
      as [[Hl2 Hok]|(before & s & after & -> & Hbefore & Hs & Hp)].
    + left. split; [by apply Forall_app|done].
    + right. exists (l1 ++ before), s, after.
      split; [by rewrite <-app_assoc|]. split; [by apply Forall_app|done].
  - right. exists before, s, (after ++ l2).
    split; [by rewrite <-app_assoc|done].
Qed.

Lemma stopsAtFirstBadPattern_foldM {A B} (f : A → B → result A)
    (pat : B → option string) :
  (∀ a b, stopsAtFirstBadPattern (option_list (pat b)) (f a b)) →
  ∀ l a, stopsAtFirstBadPattern (omap pat l) (foldM f a l).
Proof.
  intros Hf. induction l as [|b l IH]; intros a.
  - apply stopsAtFirstBadPattern_nil.
  - pose proof (Hf a b) as Hb. cbn [omap list_omap foldM].
    destruct (pat b) as [s|]; simpl in Hb.
    + change (s :: omap pat l) with ([s] ++ omap pat l).
      apply stopsAtFirstBadPattern_bind; [exact Hb|]. intros; apply IH.
    + rewrite <-(app_nil_l (omap pat l)).
      apply stopsAtFirstBadPattern_bind; [exact Hb|]. intros; apply IH.
Qed.

Lemma omap_Some_fmap {A B} (g : A → B) (l : list A) :
  omap (λ x, Some (g x)) l = g <$> l.
Proof. induction l; simpl; by f_equal. Qed.

Lemma matchLabelFilter_patterns m cfgs k :
  stopsAtFirstBadPattern [default EmptyString (m !! k)] (matchLabelFilter m cfgs k).
Proof.
  unfold matchLabelFilter.
  rewrite <-(app_nil_r [default EmptyString (m !! k)]).
  apply stopsAtFirstBadPattern_bind;
    [apply stopsAtFirstBadPattern_MustNewRegexp|].
  intros; apply stopsAtFirstBadPattern_nil.
Qed.

Lemma matchExpressionFilter_patterns cfgs exp :
  stopsAtFirstBadPattern (option_list (expressionPattern exp))
    (matchExpressionFilter cfgs exp).
Proof.
  unfold matchExpressionFilter, expressionPattern.
  repeat case_decide; simpl;
    try (rewrite <-(app_nil_r [strings_Join (Values exp) "|"]);
         apply stopsAtFirstBadPattern_bind;
           [apply stopsAtFirstBadPattern_MustNewRegexp|];
         intros; apply stopsAtFirstBadPattern_nil);
    try (rewrite MustNewRegexp_true; apply stopsAtFirstBadPattern_nil).
  apply stopsAtFirstBadPattern_nil.
Qed.

(** The rules before the port are generated when every pattern of the
    resource compiles, and otherwise the run panics on the first that does
    not. *)
Lemma selectorCfgs_patterns pm :
  stopsAtFirstBadPattern (selectorPatterns pm) (selectorCfgs pm).
Proof.
  unfold selectorPatterns, selectorCfgs.
  apply stopsAtFirstBadPattern_bind.
  { unfold namespaceFilter. rewrite <-(app_nil_r [Namespace pm]).
    apply stopsAtFirstBadPattern_bind;
      [apply stopsAtFirstBadPattern_MustNewRegexp|].
    intros; apply stopsAtFirstBadPattern_nil. }
  intros c1 _.
  apply stopsAtFirstBadPattern_bind.
  { unfold matchLabelsFilters, selectorKeys.
    rewrite <-(omap_Some_fmap
                 (λ k, default EmptyString (MatchLabels (Selector (Spec pm)) !! k))).
    apply stopsAtFirstBadPattern_foldM. intros. apply matchLabelFilter_patterns. }
  intros c2 _. rewrite <-(app_nil_r (omap _ _)).
  apply stopsAtFirstBadPattern_bind;
    [|intros; apply stopsAtFirstBadPattern_nil].
  unfold matchExpressionsFilters.
  apply stopsAtFirstBadPattern_foldM. intros. apply matchExpressionFilter_patterns.
Qed.

Lemma portFilter_no_panic ep cfgs p : portFilter ep cfgs ≠ Panic p.
Proof.
  destruct (decide (StrVal (Port ep) ≠ EmptyString)) as [Hs|Hs].
  - rewrite portFilter_named by done. by case_match.
  - apply dec_stable in Hs.
    destruct (decide (IntVal (Port ep) = 0)) as [Hi|Hi].
    + by rewrite portFilter_missing.
    + by rewrite portFilter_numeric.
Qed.

Lemma labelMappingRelabelConfigs_no_panic mappings prefix p :
  labelMappingRelabelConfigs mappings prefix ≠ Panic p.
Proof.
  destruct (Forall_or_first
              (λ m, isPrometheusTargetLabel (To m) = false) mappings)
    as [Hok|(before & m & after & -> & Hbefore & Hm)].
  - by rewrite labelMappingRelabelConfigs_accept.
  - apply not_false_is_true in Hm.
    by rewrite labelMapping_explicit_collision.
Qed.

Lemma endpontScrapeConfig_rest_no_panic pm ep cfgs p :
  endpontScrapeConfig_rest pm ep cfgs ≠ Panic p.
Proof.
  unfold endpontScrapeConfig_rest, scrapeDurations, ParseDuration_result.
  destruct (ParseDuration (Interval ep)); simpl; [|done].
  destruct (decide (Timeout ep ≠ EmptyString)); simpl; [|done].
  destruct (ParseDuration (Timeout ep)); simpl; [|done].
  by destruct (decide (_ > _)).
Qed.

(** A panic of an endpoint in range comes from the rules before the port. *)
Lemma endpontScrapeConfig_Panic_selector pm index ep p :
  Endpoints (Spec pm) !! index = Some ep →
  endpontScrapeConfig pm index = Panic p ↔ selectorCfgs pm = Panic p.
Proof.
  intros Hep. unfold endpontScrapeConfig.
  apply endpointAt_Ok in Hep. rewrite Hep. simpl.
  unfold relabelCfgsOf, targetLabelMappings.
  destruct (selectorCfgs pm) as [sel|e|p']; simpl; [|split; congruence..].
  split; [|done].
  destruct (portFilter ep sel) as [cfgs|e|p'] eqn:Hport; simpl; [|done|].
  2: { by apply portFilter_no_panic in Hport. }
  destruct (labelMappingRelabelConfigs _ _) as [maps|e|p'] eqn:Hmap;
    simpl; [|done|].
  2: { by apply labelMappingRelabelConfigs_no_panic in Hmap. }
  intros Hrest. by apply endpontScrapeConfig_rest_no_panic in Hrest.
Qed.

Lemma stopsAtFirstBadPattern_Panic {A} patterns (r : result A) p :
  stopsAtFirstBadPattern patterns r →
  r = Panic p ↔
  ∃ before s after,
    p = RegexpPanic s
    ∧ patterns = before ++ s :: after
    ∧ Forall (λ s', patternCompiles s' = true) before
    ∧ patternCompiles s = false.
Proof.
  intros [[Hall [a ->]]|(before & s & after & -> & Hbefore & Hs & ->)].
  - split; [done|]. intros (before & s & after & _ & -> & _ & Hs).
    apply Forall_app in Hall as [_ [Hs' _]%Forall_cons]. congruence.
  - split.
    + intros [= <-]. by exists before, s, after.
    + intros (before' & s' & after' & -> & Heq & Hbefore' & Hs').
      assert (∀ P (l1 l2 : list string) x y k1 k2,
                l1 ++ x :: k1 = l2 ++ y :: k2 →
                Forall P l1 → Forall P l2 → ¬ P x → ¬ P y → x = y) as Hfirst.
      { intros P l1. induction l1 as [|z l1 IH]; intros [|z' l2] x y k1 k2;
          simpl; intros [= ? ?] Hl1 Hl2 Hx Hy; subst.
        - done.
        - apply Forall_cons in Hl2 as [? _]. done.
        - apply Forall_cons in Hl1 as [? _]. done.
        - apply Forall_cons in Hl1 as [_ ?]. apply Forall_cons in Hl2 as [_ ?].
          eauto. }
      f_equal. f_equal.
      eapply (Hfirst (λ s, patternCompiles s = true)); [exact Heq|done..| |];
        congruence.
Qed.

Lemma endpontScrapeConfig_Panic_iff pm index ep p :
  Endpoints (Spec pm) !! index = Some ep →
  endpontScrapeConfig pm index = Panic p ↔
  ∃ before s after,
    p = RegexpPanic s
    ∧ selectorPatterns pm = before ++ s :: after
    ∧ Forall (λ s', patternCompiles s' = true) before
    ∧ patternCompiles s = false.
Proof.
  intros Hep. rewrite (endpontScrapeConfig_Panic_selector pm index ep p Hep).
  apply stopsAtFirstBadPattern_Panic, selectorCfgs_patterns.
Qed.

(** X21. Compiling an endpoint of the resource panics exactly when one of
    the patterns of the resource (the namespace, the value of an exact-match
    label, the joined values of an In or NotIn expression) does not compile,
    and the panic names the first such pattern in the order of the calls;
    the port, the label mappings and the durations never panic. *)
Theorem endpontScrapeConfig_panics pm index ep p :
  Endpoints (Spec pm) !! index = Some ep →
  endpontScrapeConfig pm index = Panic p ↔
  ∃ before s after,
    p = RegexpPanic s
    ∧ selectorPatterns pm = before ++ s :: after
    ∧ Forall (λ s', patternCompiles s' = true) before
    ∧ patternCompiles s = false.
Proof.
  intros Hep. rewrite (endpontScrapeConfig_Panic_selector pm index ep p Hep).
  apply stopsAtFirstBadPattern_Panic, selectorCfgs_patterns.
Qed.

(** X22. [ScrapeConfigs] and the validation of a creation panic, and return
    no error, exactly when the resource has an endpoint and one of its
    patterns does not compile; the panic names the first such pattern. An
    index outside the endpoints is never read. *)
Theorem ValidateCreate_panics pm p :
  (ValidateCreate pm = Panic p ↔ ScrapeConfigs pm = Panic p)
  ∧ (ScrapeConfigs pm = Panic p ↔
     Endpoints (Spec pm) ≠ []
     ∧ ∃ before s after,
         p = RegexpPanic s
         ∧ selectorPatterns pm = before ++ s :: after
         ∧ Forall (λ s', patternCompiles s' = true) before
         ∧ patternCompiles s = false).
Proof.
  assert (ScrapeConfigs pm = Panic p ↔
     Endpoints (Spec pm) ≠ []
     ∧ ∃ before s after,
         p = RegexpPanic s
         ∧ selectorPatterns pm = before ++ s :: after
         ∧ Forall (λ s', patternCompiles s' = true) before
         ∧ patternCompiles s = false) as Hscrape.
  { unfold ScrapeConfigs. split.
    - intros (i & [_ Hi]%elem_of_seq & Hp)%ScrapeConfigs_loop_Panic_inv.
      destruct (lookup_lt_is_Some_2 (Endpoints (Spec pm)) i) as [ep Hep]; [lia|].
      split; [intros Hnil; by rewrite Hnil in Hep|].
      by apply (endpontScrapeConfig_Panic_iff pm i ep p Hep).
    - intros [Hne Hp].
      destruct (Endpoints (Spec pm)) as [|ep eps] eqn:Heps; [done|].
      assert (Endpoints (Spec pm) !! 0%nat = Some ep) as Hep by by rewrite Heps.
      apply (endpontScrapeConfig_Panic_iff pm 0 ep p Hep) in Hp.
      simpl. by rewrite Hp. }
  split; [|done]. unfold ValidateCreate.
  destruct (decide (length (Endpoints (Spec pm)) = 0%nat)) as [Hlen|Hlen].
  - apply length_zero_iff_nil in Hlen. split; [done|].
    rewrite Hscrape. by intros [Hne _].
  - destruct (ScrapeConfigs pm); split; congruence.
Qed.

End Coverage.

(** ** The further properties on the example resources *)

Lemma compiled_durations_witness :
  @endpontScrapeConfig reference_imports scenario 0 = Ok scenario_cfg
  ∧ ScrapeTimeout scenario_cfg <= ScrapeInterval scenario_cfg.
Proof.
  assert (@endpontScrapeConfig reference_imports scenario 0 = Ok scenario_cfg)
    as Hc by (vm_compute; reflexivity).
  split; [exact Hc|].
  destruct (@compiled_durations reference_imports scenario 0%nat scenario_cfg Hc)
    as (ep & _ & _ & _ & Hle).
  exact Hle.
Defined.

Lemma timeout_within_interval_witness :
  ∃ cfg, @endpontScrapeConfig reference_imports timeout_equal 0 = Ok cfg
       ∧ ScrapeInterval cfg = 30000000000
       ∧ ScrapeTimeout cfg = 30000000000
       ∧ RelabelConfigs cfg = bare_selector_rules ++ namedPortRules "web".
Proof.
  assert (@relabelCfgsOf reference_imports timeout_equal
            (endpoint port_web "30s" "30s") =
          Ok (bare_selector_rules ++ namedPortRules "web"))
    as Hrules by (vm_compute; reflexivity).
  assert (30000000000 <= 30000000000) as Hle by lia.
  exact (@timeout_within_interval reference_imports timeout_equal 0%nat
           (endpoint port_web "30s" "30s")
           (bare_selector_rules ++ namedPortRules "web")
           30000000000 30000000000 eq_refl Hrules eq_refl eq_refl Hle).
Defined.

(** The port name is reported, although the mapping and both durations are
    at fault too. *)
Lemma error_precedence_witness :
  @endpontScrapeConfig reference_imports many_faults 0 =
  Err (InvalidPortName port_unbalanced (RegexpError "(")).
Proof.
  assert (@selectorCfgs reference_imports many_faults = Ok bare_selector_rules)
    as Hsel by (vm_compute; reflexivity).
  assert (StrVal (Port (endpoint port_unbalanced "soon" "later")) ≠ EmptyString)
    as Hs by (intros Hs; discriminate Hs).
  exact (proj1 (@error_precedence reference_imports many_faults 0%nat
                  (endpoint port_unbalanced "soon" "later")
                  bare_selector_rules eq_refl Hsel) Hs eq_refl).
Defined.

Lemma compiled_metrics_path_witness :
  @endpontScrapeConfig reference_imports scenario 0 = Ok scenario_cfg
  ∧ MetricsPath scenario_cfg ≠ EmptyString.
Proof.
  assert (@endpontScrapeConfig reference_imports scenario 0 = Ok scenario_cfg)
    as Hc by (vm_compute; reflexivity).
  split; [exact Hc|].
  destruct (@compiled_metrics_path reference_imports scenario 0%nat
              scenario_cfg Hc) as (ep & _ & _ & Hne).
  exact Hne.
Defined.

Lemma ScrapeConfigs_discovery_witness :
  ∃ res, @ScrapeConfigs reference_imports two_ports = Ok res
       ∧ length res = 2%nat
       ∧ Forall (λ cfg,
           ServiceDiscoveryConfigs cfg =
           [ {| HTTPClientConfig_ := DefaultHTTPClientConfig;
                Role := "pod";
                Selectors := [ {| SelectorRole := "pod";
                                  Field := "spec.nodeName=$(NODE_NAME)" |} ] |} ])
           res.
Proof.
  destruct (@ScrapeConfigs reference_imports two_ports) as [res| |] eqn:Hres;
    [|vm_compute in Hres; discriminate Hres..].
  exists res. split; [reflexivity|]. split.
  - vm_compute in Hres. injection Hres as <-. reflexivity.
  - exact (@ScrapeConfigs_discovery reference_imports two_ports res Hres).
Defined.

Lemma job_name_collision_witness :
  ∃ res ci cj,
    @ScrapeConfigs reference_imports same_port = Ok res
    ∧ res !! 0%nat = Some ci ∧ res !! 1%nat = Some cj
    ∧ JobName ci = JobName cj
    ∧ JobName ci = "PodMonitoring/ns1/app/web"%string.
Proof.
  destruct (@ScrapeConfigs reference_imports same_port) as [res| |] eqn:Hres;
    [|vm_compute in Hres; discriminate Hres..].
  assert (0%nat ≠ 1%nat) as Hne by lia.
  destruct (@job_name_collision reference_imports same_port res 0%nat 1%nat
              _ _ Hres Hne eq_refl eq_refl eq_refl)
    as (ci & cj & Hci & Hcj & Hsame & Hname).
  exists res, ci, cj. split; [reflexivity|]. split; [exact Hci|].
  split; [exact Hcj|]. split; [exact Hsame|]. exact Hname.
Defined.

Lemma job_name_reads_type_tag_witness :
  ∃ cfg, @endpontScrapeConfig reference_imports both_ports 0 = Ok cfg
       ∧ JobName cfg = "PodMonitoring/ns1/app/8080"%string
       ∧ ∃ before after,
           RelabelConfigs cfg = before ++ namedPortRules "web" ++ after.
Proof.
  destruct (@endpontScrapeConfig reference_imports both_ports 0)
    as [cfg| |] eqn:Hcfg; [|vm_compute in Hcfg; discriminate Hcfg..].
  assert (StrVal (Port (endpoint port_both "30s" EmptyString)) ≠ EmptyString)
    as Hs by (intros Hs; discriminate Hs).
  exists cfg. split; [reflexivity|].
  exact (@job_name_reads_type_tag reference_imports both_ports 0%nat
           (endpoint port_both "30s" EmptyString) cfg eq_refl Hcfg eq_refl Hs).
Defined.

(** The second endpoint of [two_ports] compiles as it does alone. *)
Lemma endpoint_independence_witness :
  @endpontScrapeConfig reference_imports two_ports 1 =
  @endpontScrapeConfig reference_imports
    (target ∅ [] [endpoint port_8080 "1m" "10s"] []) 0.
Proof.
  exact (@endpoint_independence reference_imports two_ports
           (target ∅ [] [endpoint port_8080 "1m" "10s"] []) 1%nat 0%nat
           (endpoint port_8080 "1m" "10s")
           eq_refl eq_refl eq_refl eq_refl eq_refl eq_refl).
Defined.

Lemma endpoints_share_rules_witness :
  ∃ ci cj sel mappings,
    @endpontScrapeConfig reference_imports two_ports 0 = Ok ci
    ∧ @endpontScrapeConfig reference_imports two_ports 1 = Ok cj
    ∧ RelabelConfigs ci = sel ++ namedPortRules "web" ++ mappings
    ∧ RelabelConfigs cj = sel ++ numericPortRules 8080 ++ mappings.
Proof.
  destruct (@endpontScrapeConfig reference_imports two_ports 0)
    as [ci| |] eqn:Hci; [|vm_compute in Hci; discriminate Hci..].
  destruct (@endpontScrapeConfig reference_imports two_ports 1)
    as [cj| |] eqn:Hcj; [|vm_compute in Hcj; discriminate Hcj..].
  destruct (@endpoints_share_rules reference_imports two_ports 0%nat 1%nat
              ci cj _ _ eq_refl eq_refl Hci Hcj)
    as (sel & mappings & _ & Hi & Hj).
  exists ci, cj, sel, mappings.
  split; [reflexivity|]. split; [reflexivity|]. split; [exact Hi|exact Hj].
Defined.

Lemma compiled_rule_count_witness :
  @endpontScrapeConfig reference_imports scenario 0 = Ok scenario_cfg
  ∧ length (RelabelConfigs scenario_cfg) = 6%nat.
Proof.
  assert (@endpontScrapeConfig reference_imports scenario 0 = Ok scenario_cfg)
    as Hc by (vm_compute; reflexivity).
  split; [exact Hc|].
  rewrite (@compiled_rule_count reference_imports scenario 0%nat scenario_cfg Hc).
  vm_compute. reflexivity.
Defined.

Lemma labelMappingRelabelConfigs_rules_witness :
  ∃ cfgs,
    @labelMappingRelabelConfigs reference_imports two_mappings
      "__meta_kubernetes_pod_label_" = Ok cfgs
    ∧ length cfgs = 2%nat.
Proof.
  destruct (@labelMappingRelabelConfigs reference_imports two_mappings
              "__meta_kubernetes_pod_label_") as [cfgs| |] eqn:Hcfgs;
    [|vm_compute in Hcfgs; discriminate Hcfgs..].
  exists cfgs. split; [reflexivity|].
  exact (proj1 (@labelMappingRelabelConfigs_rules reference_imports
                  two_mappings "__meta_kubernetes_pod_label_" cfgs Hcfgs)).
Defined.

(** The keys [a.b] and [a_b] read the same pod label. *)
Lemma sanitizeLabelName_collisions_witness :
  sanitizeLabelName "a.b" = sanitizeLabelName "a_b".
Proof.
  exact (proj1 (sanitizeLabelName_collisions "a" "."%char "b" eq_refl eq_refl)).
Defined.

Lemma sanitizeLabelName_app_witness :
  sanitizeLabelName ("__meta_kubernetes_pod_label_" +:+ "app.kubernetes.io/name") =
  sanitizeLabelName "__meta_kubernetes_pod_label_"
  +:+ sanitizeLabelName "app.kubernetes.io/name".
Proof.
  assert (allASCII "__meta_kubernetes_pod_label_") as Hs.
  { apply Forall_forall. intros c Hc.
    apply list_elem_of_In in Hc.
    revert c Hc. apply forallb_forall. vm_compute. reflexivity. }
  exact (sanitizeLabelName_app "__meta_kubernetes_pod_label_"
           "app.kubernetes.io/name" Hs).
Defined.

(** The values [web] and [db] give the rule of the one value [web|db]. *)
Lemma expression_values_joined_witness :
  @matchExpressionFilter reference_imports []
    {| Key := "tier"; Operator := "In"; Values := ["web"%string; "db"%string] |} =
  @matchExpressionFilter reference_imports []
    {| Key := "tier"; Operator := "In"; Values := ["web|db"%string] |}.
Proof.
  exact (@expression_values_joined reference_imports [] "tier" "In"
           "web" "db" [] (or_introl eq_refl)).
Defined.

Lemma presence_ignores_values_witness :
  @matchExpressionFilter reference_imports []
    {| Key := "app"; Operator := "Exists"; Values := ["x"%string] |} =
  Ok [KeepRule "__meta_kubernetes_pod_labelpresent_app" "true"].
Proof.
  exact (@presence_ignores_values reference_imports [] "app" "Exists"
           ["x"%string] (or_introl eq_refl)).
Defined.

(** The value [(] of the label [app] makes the endpoint panic. *)
Lemma endpontScrapeConfig_panics_witness :
  @endpontScrapeConfig reference_imports bad_selector 0 =
  Panic (RegexpPanic "(").
Proof.
  apply (@endpontScrapeConfig_panics reference_imports bad_selector 0%nat
           (endpoint port_web "30s" EmptyString) (RegexpPanic "(") eq_refl).
  exists ["ns1"%string], "("%string, [].
  split; [reflexivity|]. split; [vm_compute; reflexivity|].
  split; [|reflexivity].
  apply Forall_cons_2; [reflexivity|apply Forall_nil_2].
Defined.

Lemma exact_match_rules_witness :
  ∃ rules,
    @matchLabelsFilters reference_imports (range_keys labels_b_a) labels_b_a [] =
    Ok rules
    ∧ length rules = 2%nat.
Proof.
  destruct (@matchLabelsFilters reference_imports (range_keys labels_b_a)
              labels_b_a []) as [cfgs| |] eqn:Hcfgs;
    [|vm_compute in Hcfgs; discriminate Hcfgs..].
  destruct (@exact_match_rules reference_imports labels_b_a [] cfgs Hcfgs)
    as (rules & -> & Hlen & _).
  exists rules. split; [reflexivity|]. rewrite Hlen. vm_compute. reflexivity.
Defined.

(** ** Bounds *)

Section Bounds.
Context `{Imports}.

(** X23. [ScrapeConfigs] returns the empty list, and no error, exactly for a
    resource with no endpoints: the check that there is an endpoint belongs
    to validation, which rejects such a resource. *)
Theorem ScrapeConfigs_empty pm :
  (ScrapeConfigs pm = Ok [] ↔ Endpoints (Spec pm) = [])
  ∧ (Endpoints (Spec pm) = [] → ValidateCreate pm = Err NoEndpoints).
Proof.
  split.
  - unfold ScrapeConfigs. split.
    + intros (cs & Hcs & Hall)%ScrapeConfigs_loop_Ok.
      apply Forall2_length in Hall. rewrite length_seq in Hall.
      simpl in Hcs. subst cs. by apply length_zero_iff_nil.
    + by intros ->.
  - intros Hnil. unfold ValidateCreate. by rewrite Hnil.
Qed.

(** X24. Compiling the endpoint at an index panics on the index exactly when
    the index lies outside the endpoints of the resource. *)
Theorem endpontScrapeConfig_index_panic pm index i :
  endpontScrapeConfig pm index = Panic (IndexPanic i) ↔
  i = index ∧ (length (Endpoints (Spec pm)) <= index)%nat.
Proof.
  destruct (Endpoints (Spec pm) !! index) as [ep|] eqn:Hep.
  - rewrite (endpontScrapeConfig_Panic_iff pm index ep _ Hep). split.
    + by intros (before & s & after & Hp & _).
    + intros [_ Hlen]. apply lookup_lt_Some in Hep. lia.
  - unfold endpontScrapeConfig, endpointAt. rewrite Hep. simpl.
    apply lookup_ge_None in Hep. split.
    + by intros [= ->].
    + by intros [-> _].
Qed.

End Bounds.
